(** * Request validation of the server-side rendering engine

    A shallow embedding of the validation module (host allow-listing,
    forwarded-header sanity checks and the header-read interception
    wrapper) together with the properties its specification states.

    Header names and values are byte strings (the Fetch API exposes
    them as isomorphic-decoded strings, one code unit below 256 per
    byte), so they are modelled by [string]. *)

From Stdlib Require Import String Ascii List Bool Arith NArith Lia.
Import ListNotations.
Open Scope string_scope.
Open Scope bool_scope.

(** ** JavaScript string primitives used by the module *)

Module Js.

Definition code (c : ascii) : nat := nat_of_ascii c.

Definition between (lo hi : nat) (c : ascii) : bool :=
  (lo <=? code c)%nat && (code c <=? hi)%nat.

(** [String.prototype.toLowerCase] on code units below 256: the
    ASCII capitals and the Latin-1 capitals (all of 0xC0-0xDE but
    the multiplication sign 0xD7) move up by 32. *)
Definition lower_char (c : ascii) : ascii :=
  if between 65 90 c
     || (between 192 222 c && negb (code c =? 215)%nat)
  then ascii_of_nat (code c + 32)
  else c.

Fixpoint toLowerCase (s : string) : string :=
  match s with
  | EmptyString => EmptyString
  | String c t => String (lower_char c) (toLowerCase t)
  end.

(** White space and line terminators removed by [trim], among the
    code units below 256: TAB, LF, VT, FF, CR, SPACE and NBSP. *)
Definition is_space (c : ascii) : bool :=
  between 9 13 c || (code c =? 32)%nat || (code c =? 160)%nat.

Fixpoint trimStart (s : string) : string :=
  match s with
  | EmptyString => EmptyString
  | String c t => if is_space c then trimStart t else s
  end.

Fixpoint trimEnd (s : string) : string :=
  match s with
  | EmptyString => EmptyString
  | String c t =>
      match trimEnd t with
      | EmptyString => if is_space c then EmptyString else String c EmptyString
      | t' => String c t'
      end
  end.

Definition trim (s : string) : string := trimEnd (trimStart s).

(** [s.split(sep)] for a one-character separator: the pieces between
    the separators, never an empty array. *)
Fixpoint split_all (sep : ascii) (s : string) : list string :=
  match s with
  | EmptyString => [EmptyString]
  | String c t =>
      if Ascii.eqb c sep then EmptyString :: split_all sep t
      else match split_all sep t with
           | piece :: rest => String c piece :: rest
           | [] => [String c EmptyString]
           end
  end.

(** [s.split(sep, limit)]: at most [limit] pieces are kept. *)
Definition split (sep : ascii) (limit : nat) (s : string) : list string :=
  firstn limit (split_all sep s).

Definition startsWith (s p : string) : bool := prefix p s.

Fixpoint all_chars (p : ascii -> bool) (s : string) : bool :=
  match s with
  | EmptyString => true
  | String c t => p c && all_chars p t
  end.

Definition is_digit (c : ascii) : bool := between 48 57 c.

Definition is_letter (c : ascii) : bool := between 65 90 c || between 97 122 c.

Definition first_char (s : string) : option ascii :=
  match s with
  | EmptyString => None
  | String c _ => Some c
  end.

Fixpoint last_char (s : string) : option ascii :=
  match s with
  | EmptyString => None
  | String c EmptyString => Some c
  | String _ t => last_char t
  end.

(** [s.slice(n)] for [n >= 0]. *)
Fixpoint slice (n : nat) (s : string) : string :=
  match n, s with
  | O, _ => s
  | S n', String _ t => slice n' t
  | S _, EmptyString => EmptyString
  end.

(** [s.endsWith(d)]: compares the last [length d] code units of [s]
    with [d]; false when [d] is longer than [s]. *)
Definition endsWith (s d : string) : bool :=
  if (String.length d <=? String.length s)%nat
  then String.eqb (slice (String.length s - String.length d) s) d
  else false.

(** [Array.prototype.toString] of an array of strings. *)
Definition join_comma (l : list string) : string := String.concat "," l.

End Js.

(** ** Regular expressions

    The fragment of ECMAScript patterns the module's four constants
    are written in, with a backtracking matcher in continuation
    style.  The matcher carries whether the current position is the
    start of the input, which is what [^] tests (no multiline flag is
    used), and the rest of the input, whose emptiness is what [$]
    tests. *)

Module RegExp.

Inductive pattern : Type :=
| Bol                              (* ^ *)
| Eol                              (* $ *)
| Cls (members : list ascii)       (* one character of a class *)
| Cat (a b : pattern)              (* a b *)
| Alt (a b : pattern)              (* a | b *)
| Opt (a : pattern)                (* a? *)
| Plus (members : list ascii).     (* [class]+ *)

Record t : Type := mk { source : pattern; ignoreCase : bool }.

(** Canonicalize of the specification of the language, without the
    unicode flag: under [i] a code unit is compared through its upper
    case; a code unit of 128 or more is never mapped below 128, and
    the classes here hold ASCII members only, so only a-z matter. *)
Definition canonicalize (ic : bool) (c : ascii) : ascii :=
  if ic && Js.between 97 122 c then ascii_of_nat (Js.code c - 32) else c.

Definition cls_mem (ic : bool) (members : list ascii) (c : ascii) : bool :=
  existsb (fun m => Ascii.eqb (canonicalize ic m) (canonicalize ic c)) members.

(** The members of a range [lo-hi] of a class. *)
Definition range (lo hi : ascii) : list ascii :=
  map ascii_of_nat (seq (Js.code lo) (S (Js.code hi) - Js.code lo)).

Definition lit (c : ascii) : pattern := Cls [c].

Section Matcher.
Variable ic : bool.

Fixpoint plus_cls (members : list ascii) (s : string)
         (k : bool -> string -> bool) : bool :=
  match s with
  | EmptyString => false
  | String c t =>
      cls_mem ic members c && (plus_cls members t k || k false t)
  end.

Fixpoint run (p : pattern) (bol : bool) (s : string)
         (k : bool -> string -> bool) : bool :=
  match p with
  | Bol => bol && k bol s
  | Eol => match s with EmptyString => k bol s | _ => false end
  | Cls members =>
      match s with
      | EmptyString => false
      | String c t => cls_mem ic members c && k false t
      end
  | Cat a b => run a bol s (fun bol' s' => run b bol' s' k)
  | Alt a b => run a bol s k || run b bol s k
  | Opt a => run a bol s k || k bol s
  | Plus members => plus_cls members s k
  end.

Definition accept (_ : bool) (_ : string) : bool := true.

(** An unanchored search: the pattern is tried at every index,
    the end of the input included. *)
Fixpoint search (p : pattern) (bol : bool) (s : string) : bool :=
  run p bol s accept
  || match s with
     | EmptyString => false
     | String _ t => search p false t
     end.
End Matcher.

(** [RegExp.prototype.test] (the constants have neither the global
    nor the sticky flag, so every call starts at index 0). *)
Definition test (re : t) (s : string) : bool :=
  search (ignoreCase re) (source re) true s.

End RegExp.

Import RegExp.

(** ** The constants of the module *)

(** [new Set(['host', 'x-forwarded-host'])], in insertion order. *)
Definition HOST_HEADERS_TO_VALIDATE : list string :=
  ["host"; "x-forwarded-host"].

Definition digits : list ascii := range "0" "9".

(** [/^\d+$/] *)
Definition VALID_PORT_REGEX : RegExp.t :=
  RegExp.mk (Cat Bol (Cat (Plus digits) Eol)) false.

(** [/^https?$/i] *)
Definition VALID_PROTO_REGEX : RegExp.t :=
  RegExp.mk
    (Cat Bol (Cat (lit "h") (Cat (lit "t") (Cat (lit "t") (Cat (lit "p")
       (Cat (Opt (lit "s")) Eol))))))
    true.

Definition host_chars : list ascii :=
  (range "a" "z" ++ range "0" "9" ++ ["."; ":"; "-"]%char)%list.

(** [/^[a-z0-9.:-]+$/i] *)
Definition VALID_HOST_REGEX : RegExp.t :=
  RegExp.mk (Cat Bol (Cat (Plus host_chars) Eol)) true.

Definition slashes : list ascii := ["/"; "\"]%char.

(** [^[/\\]{2}], the first alternative of the pattern of the prefix. *)
Definition prefix_two_slashes : pattern :=
  Cat Bol (Cat (Cls slashes) (Cls slashes)).

(** [\.\.?(?:[/\\]|$)] *)
Definition prefix_dots : pattern :=
  Cat (lit ".") (Cat (Opt (lit ".")) (Alt (Cls slashes) Eol)).

(** [(?:^|[/\\])\.\.?(?:[/\\]|$)], the second alternative. *)
Definition prefix_segment : pattern :=
  Cat (Alt Bol (Cls slashes)) prefix_dots.

(** [/^[/\\]{2}|(?:^|[/\\])\.\.?(?:[/\\]|$)/] *)
Definition INVALID_PREFIX_REGEX : RegExp.t :=
  RegExp.mk (Alt prefix_two_slashes prefix_segment) false.

(** ** Values a header may be given as *)

Inductive header_value : Type :=
| HString (s : string)
| HArray (l : list string).

Definition toString (v : header_value) : string :=
  match v with
  | HString s => s
  | HArray l => Js.join_comma l
  end.

(** [value?.toString().split(',', 1)[0]?.trim()]; [None] is
    [undefined] (or [null] on the way in). *)
Definition getFirstHeaderValue (value : option header_value) : option string :=
  match value with
  | None => None
  | Some v =>
      match nth_error (Js.split "," 1 (toString v)) 0 with
      | None => None
      | Some piece => Some (Js.trim piece)
      end
  end.

(** Truthiness of a possibly absent string: [null], [undefined] and
    the empty string are falsy. *)
Definition truthy (v : option string) : bool :=
  match v with
  | None => false
  | Some EmptyString => false
  | Some _ => true
  end.

(** ** Errors and results

    Every [throw] site of the module has its constructor; [message]
    gives the text the [Error] is built with.  [InvalidUrlError] is the
    [TypeError] of the platform's [new URL]. *)

Inductive Error : Type :=
| InvalidUrlError (input : string)
| HeaderCharsError (headerName : string)
| PortError
| ProtoError
| PrefixError
| UrlNotAllowedError (hostname : string)
| HeaderUnparsableError (headerName : string)
| HeaderNotAllowedError (headerName value : string).

Definition dq : string := String "034" EmptyString.

Definition message (e : Error) : string :=
  match e with
  | InvalidUrlError _ => "Invalid URL"
  | HeaderCharsError headerName =>
      "Header " ++ dq ++ headerName ++ dq
        ++ " contains characters that are not allowed."
  | PortError =>
      "Header " ++ dq ++ "x-forwarded-port" ++ dq ++ " must be a numeric value."
  | ProtoError =>
      "Header " ++ dq ++ "x-forwarded-proto" ++ dq ++ " must be either "
        ++ dq ++ "http" ++ dq ++ " or " ++ dq ++ "https" ++ dq ++ "."
  | PrefixError =>
      "Header " ++ dq ++ "x-forwarded-prefix" ++ dq
        ++ " must not start with multiple " ++ dq ++ "/" ++ dq ++ " or "
        ++ dq ++ "\" ++ dq ++ " or contain " ++ dq ++ "." ++ dq ++ ", "
        ++ dq ++ ".." ++ dq ++ " path segments."
  | UrlNotAllowedError hostname =>
      "URL with hostname " ++ dq ++ hostname ++ dq ++ " is not allowed."
  | HeaderUnparsableError headerName =>
      "Header " ++ dq ++ headerName ++ dq
        ++ " contains an invalid value and cannot be parsed."
  | HeaderNotAllowedError headerName value =>
      "Header " ++ dq ++ headerName ++ dq ++ " with value "
        ++ dq ++ value ++ dq ++ " is not allowed."
  end.

Inductive result (A : Type) : Type :=
| Return (a : A)
| Throw (e : Error).

Arguments Return {A} a.
Arguments Throw {A} e.

Definition bind {A B : Type} (m : result A) (f : A -> result B) : result B :=
  match m with
  | Return a => f a
  | Throw e => Throw e
  end.

Notation "m ;; k" := (bind m (fun _ => k))
  (at level 61, right associativity).

(** A [for (const x of l)] loop whose body may throw. *)
Fixpoint for_of {A : Type} (l : list A) (body : A -> result unit) : result unit :=
  match l with
  | [] => Return tt
  | x :: rest => body x ;; for_of rest body
  end.

(** [if (v && cond(v)) throw e]. *)
Definition throw_if (v : option string) (cond : string -> bool) (e : Error)
  : result unit :=
  if truthy v && match v with Some s => cond s | None => false end
  then Throw e else Return tt.

(** ** The header collection of a request

    A header list in the sense of the Fetch standard.  Names are HTTP
    tokens (the platform rejects any other name with a [TypeError]
    before a lookup takes place, which is not modelled); a lookup
    compares names byte-case-insensitively and combines the values of
    a repeated name with a comma and a space; iteration goes through
    the lower-cased names in ascending order, each with its combined
    value, except that every [set-cookie] header is listed on its
    own. *)

Module Headers.

Definition t : Type := list (string * string).

Definition byte_lower_char (c : ascii) : ascii :=
  if Js.between 65 90 c then ascii_of_nat (Js.code c + 32) else c.

Fixpoint byte_lowercase (s : string) : string :=
  match s with
  | EmptyString => EmptyString
  | String c r => String (byte_lower_char c) (byte_lowercase r)
  end.

Definition same_name (a b : string) : bool :=
  String.eqb (byte_lowercase a) (byte_lowercase b).

Definition values_of (h : t) (name : string) : list string :=
  map snd (filter (fun nv => same_name (fst nv) name) h).

Definition get (h : t) (name : string) : option string :=
  match values_of h name with
  | [] => None
  | vs => Some (String.concat ", " vs)
  end.

Fixpoint insert_name (n : string) (l : list string) : list string :=
  match l with
  | [] => [n]
  | m :: rest =>
      match String.compare n m with
      | Lt => n :: l
      | Eq => l
      | Gt => m :: insert_name n rest
      end
  end.

Definition names (h : t) : list string :=
  fold_right insert_name [] (map (fun nv => byte_lowercase (fst nv)) h).

Definition entries (h : t) : list (string * string) :=
  flat_map
    (fun n =>
       if String.eqb n "set-cookie"
       then map (fun v => (n, v)) (values_of h n)
       else match get h n with
            | Some v => [(n, v)]
            | None => []
            end)
    (names h).

Definition values (h : t) : list string := map snd (entries h).

End Headers.

Record URL : Type := { hostname : string }.

Record Request : Type := { url : string; headers : Headers.t }.

(** [allowedHosts.has(x)] on a [Set] of strings, kept as the list of
    its members in insertion order. *)
Definition Set_has (set : list string) (x : string) : bool :=
  existsb (String.eqb x) set.

(** ** The functions of the module *)

(** The loop of [isHostAllowed] over the members of the set. *)
Fixpoint wildcard_loop (hostname : string) (members : list string) : bool :=
  match members with
  | [] => false
  | allowedHost :: rest =>
      if negb (Js.startsWith allowedHost "*.") then wildcard_loop hostname rest
      else
        let domain := Js.slice 1 allowedHost in
        if Js.endsWith hostname domain then true
        else wildcard_loop hostname rest
  end.

Definition isHostAllowed (hostname : string) (allowedHosts : list string) : bool :=
  if Set_has allowedHosts hostname then true
  else wildcard_loop hostname allowedHosts.

Definition header_token (headers : Headers.t) (name : string) : option string :=
  getFirstHeaderValue (option_map HString (Headers.get headers name)).

Definition validateHeaders (request : Request) : result unit :=
  let headers := headers request in
  for_of HOST_HEADERS_TO_VALIDATE
    (fun headerName =>
       let headerValue := header_token headers headerName in
       throw_if headerValue (fun v => negb (test VALID_HOST_REGEX v))
                (HeaderCharsError headerName)) ;;
  let xForwardedPort := header_token headers "x-forwarded-port" in
  throw_if xForwardedPort (fun v => negb (test VALID_PORT_REGEX v)) PortError ;;
  let xForwardedProto := header_token headers "x-forwarded-proto" in
  throw_if xForwardedProto (fun v => negb (test VALID_PROTO_REGEX v)) ProtoError ;;
  let xForwardedPrefix := header_token headers "x-forwarded-prefix" in
  throw_if xForwardedPrefix (fun v => test INVALID_PREFIX_REGEX v) PrefixError.

Definition validateUrl (u : URL) (allowedHosts : list string) : result unit :=
  let hostname := hostname u in
  if negb (isHostAllowed hostname allowedHosts)
  then Throw (UrlNotAllowedError hostname)
  else Return tt.

(** The one-shot outcome promise: pending, or resolved with an error.
    Resolving a resolved promise changes nothing. *)
Definition Promise : Type := option Error.

Definition resolve (p : Promise) (e : Error) : Promise :=
  match p with
  | None => Some e
  | Some _ => p
  end.

Section Platform.

(** The URL parser of the platform: [None] when the input does not
    parse, that is when [URL.canParse] is false and [new URL]
    throws. *)
Variable parse_url : string -> option URL.

Definition URL_canParse (input : string) : bool :=
  match parse_url input with
  | Some _ => true
  | None => false
  end.

Definition new_URL (input : string) : result URL :=
  match parse_url input with
  | Some u => Return u
  | None => Throw (InvalidUrlError input)
  end.

Definition validateRequest (request : Request) (allowedHosts : list string)
  : result unit :=
  validateHeaders request ;;
  bind (new_URL (url request)) (fun u => validateUrl u allowedHosts).

Definition verifyHostAllowed (headerName headerValue : string)
           (allowedHosts : list string) : result unit :=
  let value := getFirstHeaderValue (Some (HString headerValue)) in
  match value with
  | None | Some EmptyString => Return tt
  | Some value =>
      let url := "http://" ++ value in
      if negb (URL_canParse url) then Throw (HeaderUnparsableError headerName)
      else
        bind (new_URL url) (fun u =>
          let hostname := hostname u in
          if negb (isHostAllowed hostname allowedHosts)
          then Throw (HeaderNotAllowedError headerName value)
          else Return tt)
  end.

(** [validateHeader]: the callback [onError] is the resolver of the
    outcome promise, whose state is passed through. *)
Definition validateHeader (name : string) (value : option string)
           (allowedHosts : list string) (onError : Promise)
  : result unit * Promise :=
  match value with
  | None | Some EmptyString => (Return tt, onError)
  | Some v =>
      if negb (Set_has HOST_HEADERS_TO_VALIDATE (Js.toLowerCase name))
      then (Return tt, onError)
      else
        match verifyHostAllowed name v allowedHosts with
        | Return _ => (Return tt, onError)
        | Throw error => (Throw error, resolve onError error)
        end
  end.

(** The clone made by [cloneRequestAndPatchHeaders]: the request,
    and the allow-list its patched header methods close over. *)
Record Patched : Type :=
  { clonedReq : Request; allowedHosts_of : list string }.

(** Returns the clone and the outcome promise, pending. *)
Definition cloneRequestAndPatchHeaders (request : Request)
           (allowedHosts : list string) : Patched * Promise :=
  ({| clonedReq := request; allowedHosts_of := allowedHosts |}, None).

(** [headers.get(name)] on the clone. *)
Definition patched_get (c : Patched) (name : string) (onError : Promise)
  : result (option string) * Promise :=
  let value := Headers.get (headers (clonedReq c)) name in
  if negb (truthy value) then (Return value, onError)
  else
    match validateHeader name value (allowedHosts_of c) onError with
    | (Return _, p) => (Return value, p)
    | (Throw e, p) => (Throw e, p)
    end.

(** The loop of [headers.values()] over the validated names. *)
Fixpoint values_loop (c : Patched) (names : list string) (onError : Promise)
  : result unit * Promise :=
  match names with
  | [] => (Return tt, onError)
  | name :: rest =>
      match validateHeader name (Headers.get (headers (clonedReq c)) name)
                           (allowedHosts_of c) onError with
      | (Return _, p) => values_loop c rest p
      | (Throw e, p) => (Throw e, p)
      end
  end.

(** [headers.values()] on the clone: the original iterator is
    returned once both names went through [validateHeader]. *)
Definition patched_values (c : Patched) (onError : Promise)
  : result (list string) * Promise :=
  match values_loop c HOST_HEADERS_TO_VALIDATE onError with
  | (Return _, p) => (Return (Headers.values (headers (clonedReq c))), p)
  | (Throw e, p) => (Throw e, p)
  end.

(** [headers.entries()] on the clone (also its [Symbol.iterator]):
    an iterator over the original one, here the entries left. *)
Definition patched_entries (c : Patched) : list (string * string) :=
  Headers.entries (headers (clonedReq c)).

(** [next()] of that iterator: the entry read ([None] when done),
    the entries left and the promise.  The original iterator has
    moved on even when the validation throws. *)
Definition patched_next (c : Patched) (iterator : list (string * string))
           (onError : Promise)
  : result (option (string * string)) * list (string * string) * Promise :=
  match iterator with
  | [] => (Return None, [], onError)
  | (key, value) :: rest =>
      match validateHeader key (Some value) (allowedHosts_of c) onError with
      | (Return _, p) => (Return (Some (key, value)), rest, p)
      | (Throw e, p) => (Throw e, rest, p)
      end
  end.

(** A [for (const entry of headers)] loop that collects what it
    reads: it stops at the first [next()] that throws. *)
Fixpoint for_of_entries (c : Patched) (iterator : list (string * string))
         (onError : Promise)
  : result (list (string * string)) * Promise :=
  match iterator with
  | [] => (Return [], onError)
  | (key, value) :: rest =>
      match validateHeader key (Some value) (allowedHosts_of c) onError with
      | (Return _, p) =>
          match for_of_entries c rest p with
          | (Return l, p') => (Return ((key, value) :: l), p')
          | (Throw e, p') => (Throw e, p')
          end
      | (Throw e, p) => (Throw e, p)
      end
  end.

End Platform.

(** ** A reference URL parser

    The functions above take the platform's URL parser as a
    parameter, and the general theorems below hold for any parser.
    The examples need one to run: [Whatwg.parse] follows the URL
    standard for [http] and [https] inputs whose host is a plain
    ASCII domain.  It answers [None] both where the standard fails
    (a forbidden code point in the host, an empty host, a bad port)
    and on what it leaves out: other schemes, hosts that end in a
    number, which the standard reads as IPv4 addresses, IPv6
    literals, percent-encoded or non-ASCII hosts, and hosts with a
    label in punycode.  The examples stay away from the latter. *)

Module Whatwg.

Definition c0_or_space (c : ascii) : bool := (Js.code c <=? 32)%nat.

Definition tab_or_newline (c : ascii) : bool :=
  (Js.code c =? 9)%nat || (Js.code c =? 10)%nat || (Js.code c =? 13)%nat.

Fixpoint drop_while (p : ascii -> bool) (s : string) : string :=
  match s with
  | EmptyString => EmptyString
  | String c t => if p c then drop_while p t else s
  end.

Fixpoint drop_end (p : ascii -> bool) (s : string) : string :=
  match s with
  | EmptyString => EmptyString
  | String c t =>
      match drop_end p t with
      | EmptyString => if p c then EmptyString else String c EmptyString
      | t' => String c t'
      end
  end.

Fixpoint remove (p : ascii -> bool) (s : string) : string :=
  match s with
  | EmptyString => EmptyString
  | String c t => if p c then remove p t else String c (remove p t)
  end.

(** The longest prefix free of [stop], and what follows it. *)
Fixpoint span (stop : ascii -> bool) (s : string) : string * string :=
  match s with
  | EmptyString => (EmptyString, EmptyString)
  | String c t =>
      if stop c then (EmptyString, s)
      else let (a, b) := span stop t in (String c a, b)
  end.

(** What follows the last [sep] of [s], if there is one. *)
Fixpoint after_last (sep : ascii) (s : string) : option string :=
  match s with
  | EmptyString => None
  | String c t =>
      match after_last sep t with
      | Some r => Some r
      | None => if Ascii.eqb c sep then Some t else None
      end
  end.

Fixpoint decimal (acc : N) (s : string) : N :=
  match s with
  | EmptyString => acc
  | String c t => decimal (10 * acc + (N_of_ascii c - 48))%N t
  end.

Definition port_ok (p : string) : bool :=
  Js.all_chars Js.is_digit p
  && (decimal 0 p <=? 65535)%N.

Definition is_slash (c : ascii) : bool :=
  Ascii.eqb c "/" || Ascii.eqb c "\".

Definition ends_authority (c : ascii) : bool :=
  is_slash c || Ascii.eqb c "?" || Ascii.eqb c "#".

(** Forbidden domain code points, and what is left out. *)
Definition plain_host_char (c : ascii) : bool :=
  (32 <? Js.code c)%nat && (Js.code c <? 127)%nat
  && negb (existsb (Ascii.eqb c)
             ["#"; "/"; ":"; "<"; ">"; "?"; "@"; "["; "\"; "]"; "^"; "|"; "%"]%char).

(** The last label of a host, a final dot set aside. *)
Definition last_label (host : string) : string :=
  let labels := Js.split_all "." host in
  match rev labels with
  | EmptyString :: l :: _ => l
  | l :: _ => l
  | [] => EmptyString
  end.

Definition is_hex (c : ascii) : bool := Js.is_digit c || Js.between 97 102 c.

(** The last label is a number in the decimal, octal or hexadecimal
    writing; the host is in lower case. *)
Definition ends_in_a_number (host : string) : bool :=
  let l := last_label host in
  negb (String.eqb l EmptyString)
  && (Js.all_chars Js.is_digit l
      || (prefix "0x" l && Js.all_chars is_hex (Js.slice 2 l))).

Definition has_punycode_label (host : string) : bool :=
  existsb (prefix "xn--") (Js.split_all "." host).

Definition parse_host (host : string) : option string :=
  if String.eqb host EmptyString then None
  else if negb (Js.all_chars plain_host_char host) then None
  else
    let h := Headers.byte_lowercase host in
    if ends_in_a_number h || has_punycode_label h then None else Some h.

Definition after_scheme (input : string) : option string :=
  let low := Headers.byte_lowercase (substring 0 6 input) in
  if prefix "http:" low then Some (Js.slice 5 input)
  else if prefix "https:" low then Some (Js.slice 6 input)
  else None.

Definition parse (input : string) : option URL :=
  let input := remove tab_or_newline
                 (drop_end c0_or_space (drop_while c0_or_space input)) in
  match after_scheme input with
  | None => None
  | Some rest =>
      let (authority, _) := span ends_authority (drop_while is_slash rest) in
      let hostport :=
        match after_last "@" authority with
        | Some r => r
        | None => authority
        end in
      let (host, port) := span (Ascii.eqb ":") hostport in
      if port_ok (Js.slice 1 port)
      then option_map (fun h => {| hostname := h |}) (parse_host host)
      else None
  end.

End Whatwg.

(** * The notions of the specification

    What the specification states its properties with, defined from
    its words and apart from the functions above, and the shorthands
    the statements below are written with. *)

(** An entry starting with a star and a dot matches the hostnames
    ending with the entry less its star. *)
Definition wildcard_matches (entry h : string) : Prop :=
  exists d, entry = "*." ++ d /\ exists label, h = label ++ "." ++ d.

Definition allowed_by (h : string) (S : list string) : Prop :=
  In h S \/ exists entry, In entry S /\ wildcard_matches entry h.

(** [tok] is the first comma-separated token of [s]: it holds no comma, and [s] is [tok]
    alone or [tok], a comma and the rest. *)
Definition first_token_of (s tok : string) : Prop :=
  Js.all_chars (fun c => negb (Ascii.eqb c ",")) tok = true
  /\ (s = tok \/ exists rest, s = tok ++ "," ++ rest).

Definition not_space (c : option ascii) : Prop :=
  match c with
  | Some c => Js.is_space c = false
  | None => True
  end.

(** [t] is [tok] without its surrounding white space. *)
Definition trimmed_of (tok t : string) : Prop :=
  exists l r,
    tok = l ++ t ++ r
    /\ Js.all_chars Js.is_space l = true
    /\ Js.all_chars Js.is_space r = true
    /\ not_space (Js.first_char t)
    /\ not_space (Js.last_char t).

(** The rule on the prefix as a decision procedure: the token is cut
    at every slash and backslash, and it is rejected when it starts
    with two of them or when a piece is a dot or two. *)
Definition is_sep (c : ascii) : bool := Ascii.eqb c "/" || Ascii.eqb c "\".

Definition starts_with_two_seps (s : string) : bool :=
  match s with
  | String a (String b _) => is_sep a && is_sep b
  | _ => false
  end.

Fixpoint path_segments (s : string) : list string :=
  match s with
  | EmptyString => [EmptyString]
  | String c t =>
      if is_sep c then EmptyString :: path_segments t
      else match path_segments t with
           | seg :: rest => String c seg :: rest
           | [] => [String c EmptyString]
           end
  end.

Definition first_segment (s : string) : string := hd EmptyString (path_segments s).
Definition later_segments (s : string) : list string := tl (path_segments s).

Definition is_dot_segment (seg : string) : bool :=
  String.eqb seg "." || String.eqb seg "..".

Definition prefix_rejected (s : string) : bool :=
  starts_with_two_seps s || existsb is_dot_segment (path_segments s).

(** The rules on the characters, in the words of the specification:
    a host is made of letters, digits, dots, colons and hyphens, a
    port of digits, and the protocol is [http] or [https] whatever
    the case of its letters. *)
Definition host_char (c : ascii) : bool :=
  Js.is_letter c || Js.is_digit c
  || Ascii.eqb c "." || Ascii.eqb c ":" || Ascii.eqb c "-".

Definition nonempty (s : string) : bool := negb (String.eqb s "").

(** The names the header methods of the platform take: HTTP tokens.
    Under any other name a lookup throws a [TypeError] before anything
    is read, which [Headers.get] does not model: a statement about a
    lookup under a name that may be any string assumes a token. *)
Definition tchar (c : ascii) : bool :=
  Js.is_letter c || Js.is_digit c
  || existsb (Ascii.eqb c)
       ["!"; "#"; "$"; "%"; "&"; "'"; "*"; "+"; "-"; "."; "^"; "_"; "`"; "|"; "~"]%char.

Definition is_token (name : string) : bool :=
  nonempty name && Js.all_chars tchar name.

Definition valid_host_token (s : string) : bool :=
  nonempty s && Js.all_chars host_char s.

Definition all_digits (s : string) : bool :=
  nonempty s && Js.all_chars Js.is_digit s.

Definition http_or_https (s : string) : bool :=
  String.eqb (Headers.byte_lowercase s) "http"
  || String.eqb (Headers.byte_lowercase s) "https".

(** A rule fails on a token that is there, is not empty and is bad. *)
Definition rule_fails (tok : option string) (bad : string -> bool) : bool :=
  match tok with
  | Some (String _ _ as t) => bad t
  | _ => false
  end.

Definition host_chars_fail (request : Request) (name : string) : bool :=
  rule_fails (header_token (headers request) name)
             (fun t => negb (test VALID_HOST_REGEX t)).

Definition port_fails (request : Request) : bool :=
  rule_fails (header_token (headers request) "x-forwarded-port")
             (fun t => negb (test VALID_PORT_REGEX t)).

Definition proto_fails (request : Request) : bool :=
  rule_fails (header_token (headers request) "x-forwarded-proto")
             (fun t => negb (test VALID_PROTO_REGEX t)).

Definition prefix_fails (request : Request) : bool :=
  rule_fails (header_token (headers request) "x-forwarded-prefix")
             (test INVALID_PREFIX_REGEX).

(** The last step of [validateRequest]: the URL of the request is
    parsed and its hostname looked up in the allow-list. *)
Definition url_step (parse_url : string -> option URL) (request : Request)
           (allowedHosts : list string) : result unit :=
  match parse_url (url request) with
  | None => Throw (InvalidUrlError (url request))
  | Some u =>
      if isHostAllowed (hostname u) allowedHosts then Return tt
      else Throw (UrlNotAllowedError (hostname u))
  end.

(** The header an error of [validateHeaders] is about. *)
Definition error_header (e : Error) : option string :=
  match e with
  | HeaderCharsError name => Some name
  | PortError => Some "x-forwarded-port"
  | ProtoError => Some "x-forwarded-proto"
  | PrefixError => Some "x-forwarded-prefix"
  | _ => None
  end.

(** Whether [validateHeader] looks at a header of that name. *)
Definition sensitive (name : string) : bool :=
  Set_has HOST_HEADERS_TO_VALIDATE (Js.toLowerCase name).

Definition is_ascii (s : string) : bool :=
  Js.all_chars (fun c => (Js.code c <? 128)%nat) s.

(** What [verifyHostAllowed] asks of a first token that is not
    empty: to parse as the host of a URL, and the hostname parsed to
    be allowed. *)
Definition host_check (parse_url : string -> option URL) (name tok : string)
           (allowedHosts : list string) : result unit :=
  match parse_url ("http://" ++ tok) with
  | None => Throw (HeaderUnparsableError name)
  | Some u =>
      if isHostAllowed (hostname u) allowedHosts then Return tt
      else Throw (HeaderNotAllowedError name tok)
  end.

(** The outcome of a read that goes through [validateHeader]: the
    value read when the check passes, the error otherwise, which also
    resolves the promise. *)
Definition checked {A : Type} (check : result unit) (a : A) (onError : Promise)
  : result A * Promise :=
  match check with
  | Return _ => (Return a, onError)
  | Throw e => (Throw e, resolve onError e)
  end.

(** The outcome of a read that raises [e]. *)
Definition raises {A : Type} (e : Error) (p : Promise) : result A * Promise :=
  (Throw e, resolve p e).

(** A read leaves the promise as it was when it returns, and
    resolves it with the error it raises otherwise. *)
Definition mirrored {A : Type} (out : result A * Promise) (p : Promise) : Prop :=
  match out with
  | (Return _, p') => p' = p
  | (Throw e, p') => p' = resolve p e
  end.

(** What [values()] does with one of the two names. *)
Definition values_check (parse_url : string -> option URL) (c : Patched)
           (name : string) : result unit :=
  match Headers.get (headers (clonedReq c)) name with
  | Some (String _ _ as v) =>
      verifyHostAllowed parse_url name v (allowedHosts_of c)
  | _ => Return tt
  end.

(** What a step over the entries does with the entry it reads. *)
Definition entry_check (parse_url : string -> option URL) (c : Patched)
           (entry : string * string) : result unit :=
  if sensitive (fst entry) && nonempty (snd entry)
  then verifyHostAllowed parse_url (fst entry) (snd entry) (allowedHosts_of c)
  else Return tt.

(** The reads a caller may make of the headers of the clone. *)
Inductive read : Type :=
| ReadGet (name : string)
| ReadValues
| ReadNext (iterator : list (string * string)).

Definition error_of {A : Type} (r : result A) : option Error :=
  match r with
  | Return _ => None
  | Throw e => Some e
  end.

(** One read: the error it raises, if any, and the promise. *)
Definition do_read (parse_url : string -> option URL) (c : Patched)
           (r : read) (p : Promise) : option Error * Promise :=
  match r with
  | ReadGet name =>
      let (res, p') := patched_get parse_url c name p in (error_of res, p')
  | ReadValues =>
      let (res, p') := patched_values parse_url c p in (error_of res, p')
  | ReadNext iterator =>
      let '(res, _, p') := patched_next parse_url c iterator p in
      (error_of res, p')
  end.

(** A run of reads by a caller that catches what each one raises and
    goes on: the errors raised, read by read, and the promise. *)
Fixpoint do_reads (parse_url : string -> option URL) (c : Patched)
         (rs : list read) (p : Promise) : list (option Error) * Promise :=
  match rs with
  | [] => ([], p)
  | r :: rest =>
      let (e, p') := do_read parse_url c r p in
      let (es, p'') := do_reads parse_url c rest p' in
      (e :: es, p'')
  end.

Fixpoint first_error (es : list (option Error)) : option Error :=
  match es with
  | [] => None
  | Some e :: _ => Some e
  | None :: rest => first_error rest
  end.

(** What an error of [validateRequest] says about the request. *)
Definition error_justified (parse_url : string -> option URL)
           (request : Request) (allowedHosts : list string) (e : Error) : Prop :=
  match e with
  | HeaderCharsError name =>
      (name = "host" \/ name = "x-forwarded-host")
      /\ host_chars_fail request name = true
  | PortError => port_fails request = true
  | ProtoError => proto_fails request = true
  | PrefixError => prefix_fails request = true
  | UrlNotAllowedError h =>
      exists u, parse_url (url request) = Some u /\ hostname u = h
                /\ isHostAllowed h allowedHosts = false
  | InvalidUrlError input => input = url request /\ parse_url input = None
  | HeaderUnparsableError _ | HeaderNotAllowedError _ _ => False
  end.

(** The names [validateRequest] looks up in the headers. *)
Definition validated_names : list string :=
  ["host"; "x-forwarded-host"; "x-forwarded-port"; "x-forwarded-proto";
   "x-forwarded-prefix"].

(** A lookup is made under a token. *)
Definition token_read (r : read) : Prop :=
  match r with
  | ReadGet name => is_token name = true
  | _ => True
  end.

(** A read of the clone: a lookup under a token, a call of
    [values()], or a step of an iterator over entries of the clone. *)
Definition from_clone (c : Patched) (r : read) : Prop :=
  match r with
  | ReadGet name => is_token name = true
  | ReadValues => True
  | ReadNext iterator => incl iterator (patched_entries c)
  end.

(** ** Requests and an allow-list for the examples *)

Definition allowed_example : list string := ["*.example.com"].

Definition request_bad_port_and_prefix : Request :=
  {| url := "https://allowed.example.com/page";
     headers := [("x-forwarded-port", "80a"); ("x-forwarded-prefix", "//evil")] |}.

Definition request_dot_segment : Request :=
  {| url := "https://allowed.example.com/page";
     headers := [("host", "allowed.example.com");
                 ("x-forwarded-prefix", "/app/../secret, /ok")] |}.

Definition request_attacker : Request :=
  {| url := "https://allowed.example.com/page";
     headers := [("host", "attacker.com")] |}.

Definition request_path_host : Request :=
  {| url := "https://allowed.example.com/page";
     headers := [("host", "api.example.com/x")] |}.

Definition request_bad_host : Request :=
  {| url := "https://allowed.example.com/page";
     headers := [("accept", "text/html"); ("x-forwarded-host", "bad host")] |}.

Definition request_mixed_case : Request :=
  {| url := "https://allowed.example.com/page";
     headers := [("Host", "attacker.com"); ("X-Real-Host", "bad host")] |}.

Definition request_two_violations : Request :=
  {| url := "https://allowed.example.com/page";
     headers := [("host", "attacker.com"); ("accept", "text/html");
                 ("x-forwarded-host", "bad host")] |}.

Definition request_port_only : Request :=
  {| url := "https://allowed.example.com/page";
     headers := [("x-forwarded-port", "80a")] |}.

Definition request_plain : Request :=
  {| url := "https://allowed.example.com/page";
     headers := [("x-forwarded-prefix", ""); ("accept", "text/html")] |}.

(** * Properties *)

(** ** The examples of the specification *)

Example parse_page :
  Whatwg.parse "https://allowed.example.com/page"
  = Some {| hostname := "allowed.example.com" |}.
Proof. reflexivity. Qed.

Example parse_attacker :
  Whatwg.parse "http://attacker.com" = Some {| hostname := "attacker.com" |}.
Proof. reflexivity. Qed.

Example parse_bad_host : Whatwg.parse "http://bad host" = None.
Proof. reflexivity. Qed.

Example parse_with_path :
  Whatwg.parse "http://api.example.com/x" = Some {| hostname := "api.example.com" |}.
Proof. reflexivity. Qed.

Example parse_with_port :
  Whatwg.parse "http://Example.com:8080" = Some {| hostname := "example.com" |}.
Proof. reflexivity. Qed.

Example scenario_A :
  validateRequest Whatwg.parse
    {| url := "https://allowed.example.com/page"; headers := [] |}
    allowed_example
  = Return tt.
Proof. reflexivity. Qed.

Example first_violation_wins :
  do_reads Whatwg.parse
    (fst (cloneRequestAndPatchHeaders request_two_violations allowed_example))
    [ReadGet "accept"; ReadGet "x-forwarded-host"; ReadGet "host"; ReadValues]
    None
  = ([None;
      Some (HeaderUnparsableError "x-forwarded-host");
      Some (HeaderNotAllowedError "host" "attacker.com");
      Some (HeaderNotAllowedError "host" "attacker.com")],
     Some (HeaderUnparsableError "x-forwarded-host")).
Proof. reflexivity. Qed.

Example entries_in_order :
  Headers.entries (headers request_two_violations)
  = [("accept", "text/html"); ("host", "attacker.com");
     ("x-forwarded-host", "bad host")].
Proof. reflexivity. Qed.

Example getFirstHeaderValue_abc :
  getFirstHeaderValue (Some (HString "a, b, c")) = Some "a".
Proof. reflexivity. Qed.

Example port_8080 : test VALID_PORT_REGEX "8080" = true.
Proof. reflexivity. Qed.
Example port_80a : test VALID_PORT_REGEX "80a" = false.
Proof. reflexivity. Qed.
Example proto_HTTPS : test VALID_PROTO_REGEX "HTTPS" = true.
Proof. reflexivity. Qed.
Example proto_ftp : test VALID_PROTO_REGEX "ftp" = false.
Proof. reflexivity. Qed.
Example host_space : test VALID_HOST_REGEX "exa mple.com" = false.
Proof. reflexivity. Qed.
Example host_port : test VALID_HOST_REGEX "example.com:8080" = true.
Proof. reflexivity. Qed.
Example prefix_evil : test INVALID_PREFIX_REGEX "//evil" = true.
Proof. reflexivity. Qed.
Example prefix_dotdot : test INVALID_PREFIX_REGEX "/app/../secret" = true.
Proof. reflexivity. Qed.
Example prefix_app : test INVALID_PREFIX_REGEX "/app" = false.
Proof. reflexivity. Qed.

(** ** String primitives *)

Section JsFacts.

Lemma append_empty_r (s : string) : s ++ "" = s.
Proof. induction s; simpl; congruence. Qed.

Lemma length_append (a b : string) :
  String.length (a ++ b) = String.length a + String.length b.
Proof. induction a; simpl; congruence. Qed.

Lemma startsWith_iff (s p : string) :
  Js.startsWith s p = true <-> exists r, s = p ++ r.
Proof.
  unfold Js.startsWith. revert s.
  induction p as [|c p IH]; intros s; simpl.
  - destruct s; split; eauto.
  - destruct s as [|d s].
    + split; [discriminate | intros [r Hr]; discriminate].
    + simpl. destruct (ascii_dec c d) as [E|Hne].
      * rewrite IH. subst d. split; intros [r Hr]; exists r; congruence.
      * split; [discriminate | intros [r Hr]; congruence].
Qed.

Lemma slice_append (pre d : string) : Js.slice (String.length pre) (pre ++ d) = d.
Proof. induction pre; simpl; [destruct d|]; auto. Qed.

Lemma slice_split (n : nat) (s : string) :
  n <= String.length s ->
  exists pre, s = pre ++ Js.slice n s /\ String.length pre = n.
Proof.
  revert s. induction n as [|n IH]; intros s Hn.
  - exists "". destruct s; auto.
  - destruct s as [|c s]; simpl in *; [lia|].
    destruct (IH s) as [pre [E L]]; [lia|].
    exists (String c pre). simpl. split; congruence.
Qed.

Lemma endsWith_iff (s d : string) :
  Js.endsWith s d = true <-> exists pre, s = pre ++ d.
Proof.
  unfold Js.endsWith. split.
  - destruct (Nat.leb_spec (String.length d) (String.length s)); [|discriminate].
    intros E. apply String.eqb_eq in E.
    destruct (slice_split (String.length s - String.length d) s) as [pre [Hs _]]; [lia|].
    exists pre. congruence.
  - intros [pre ->]. rewrite length_append.
    replace (String.length d <=? String.length pre + String.length d)%nat with true
      by (symmetry; apply Nat.leb_le; lia).
    replace (String.length pre + String.length d - String.length d)
      with (String.length pre) by lia.
    rewrite slice_append. apply String.eqb_refl.
Qed.

Lemma Set_has_iff (set : list string) (x : string) :
  Set_has set x = true <-> In x set.
Proof.
  unfold Set_has. rewrite existsb_exists. split.
  - intros [y [Hy E]]. apply String.eqb_eq in E. congruence.
  - intros H. exists x. split; [assumption | apply String.eqb_refl].
Qed.

End JsFacts.

(** ** The allow-list matcher *)

Lemma wildcard_step (entry h : string) :
  (Js.startsWith entry "*." = true /\ Js.endsWith h (Js.slice 1 entry) = true)
  <-> wildcard_matches entry h.
Proof.
  unfold wildcard_matches. rewrite startsWith_iff, endsWith_iff. split.
  - intros [[d ->] [label E]]. exists d. split; [reflexivity|].
    exists label. exact E.
  - intros [d [-> [label E]]]. split; [exists d; reflexivity|].
    exists label. exact E.
Qed.

Lemma wildcard_loop_iff (h : string) (S : list string) :
  wildcard_loop h S = true <-> exists entry, In entry S /\ wildcard_matches entry h.
Proof.
  induction S as [|e S IH].
  - simpl. split; [discriminate | intros [x [[] _]]].
  - cbn [wildcard_loop]. pose proof (wildcard_step e h) as W.
    destruct (Js.startsWith e "*."); cbn [negb];
      [destruct (Js.endsWith h (Js.slice 1 e))|].
    + split; [|reflexivity]. intros _. exists e. split; [now left|].
      apply W. auto.
    + rewrite IH. split.
      * intros [x [Hx Hm]]. exists x. split; [now right | assumption].
      * intros [x [[<-|Hx] Hm]]; [|eauto].
        apply W in Hm. destruct Hm; discriminate.
    + rewrite IH. split.
      * intros [x [Hx Hm]]. exists x. split; [now right | assumption].
      * intros [x [[<-|Hx] Hm]]; [|eauto].
        apply W in Hm. destruct Hm; discriminate.
Qed.

Lemma isHostAllowed_iff (h : string) (S : list string) :
  isHostAllowed h S = true <-> allowed_by h S.
Proof.
  unfold isHostAllowed, allowed_by.
  destruct (Set_has S h) eqn:E.
  - apply Set_has_iff in E. tauto.
  - rewrite wildcard_loop_iff. split; [auto|].
    intros [H|H]; [|assumption].
    apply Set_has_iff in H. congruence.
Qed.

(** C3: [isHostAllowed] answers true exactly for the verbatim
    members of the set and for the hostnames ending with a wildcard
    entry less its star; so every member of a set is allowed by it, and
    with the single entry [*.example.com] the host [api.example.com] is
    allowed while [evilexample.com] is not. *)
Theorem isHostAllowed_spec :
  (forall h S, isHostAllowed h S = true <-> allowed_by h S)
  /\ (forall h before after, isHostAllowed h (before ++ h :: after) = true)
  /\ isHostAllowed "api.example.com" ["*.example.com"] = true
  /\ isHostAllowed "evilexample.com" ["*.example.com"] = false.
Proof.
  split; [exact isHostAllowed_iff|]. split; [|split; reflexivity].
  intros h before after. apply isHostAllowed_iff. left.
  apply in_or_app. right. now left.
Qed.

(** C4 as the specification words it fails: the bare domain is not
    matched by its wildcard entry. *)
Lemma bare_domain_counterexample :
  isHostAllowed "example.com" ["*.example.com"] <> true.
Proof. discriminate. Qed.

Lemma wildcard_misses_bare_domain (d : string) :
  ~ wildcard_matches ("*." ++ d) d.
Proof.
  intros [d' [E [label Hl]]]. injection E as <-.
  apply (f_equal String.length) in Hl.
  rewrite length_append in Hl. simpl in Hl. lia.
Qed.

(** C4, amended: a wildcard entry does not match the bare domain it
    is made of, since the hostname has to end with the dot too: the
    entry alone does not allow the domain, and with the single entry
    [*.example.com] the host [example.com] is not allowed.  Put into
    any allow-list, the entry changes nothing for the bare domain. *)
Theorem wildcard_excludes_bare_domain :
  (forall d, ~ wildcard_matches ("*." ++ d) d)
  /\ (forall d, isHostAllowed d ["*." ++ d] = false)
  /\ (forall d S, isHostAllowed d (("*." ++ d) :: S) = isHostAllowed d S)
  /\ isHostAllowed "example.com" ["*.example.com"] = false.
Proof.
  assert (Add : forall d S,
             isHostAllowed d (("*." ++ d) :: S) = isHostAllowed d S).
  { intros d S.
    destruct (isHostAllowed d S) eqn:B.
    - apply isHostAllowed_iff. apply isHostAllowed_iff in B.
      destruct B as [B|[e [Hin Hm]]]; [left; now right|].
      right. exists e. split; [now right | assumption].
    - destruct (isHostAllowed d (("*." ++ d) :: S)) eqn:A; [|reflexivity].
      apply isHostAllowed_iff in A. rewrite <- B. symmetry.
      apply isHostAllowed_iff.
      destruct A as [[A|A]|[e [[<-|Hin] Hm]]].
      + apply (f_equal String.length) in A. simpl in A. lia.
      + now left.
      + now apply wildcard_misses_bare_domain in Hm.
      + right. exists e. auto. }
  split; [exact wildcard_misses_bare_domain|].
  split; [|split; [exact Add | reflexivity]].
  intros d. now rewrite Add.
Qed.

(** ** The first value of a multi-value header *)

Lemma split_all_head (s : string) :
  exists tok rest,
    Js.split_all "," s = tok :: rest /\ first_token_of s tok.
Proof.
  unfold first_token_of. induction s as [|c s IH].
  - exists "", []. simpl. auto.
  - destruct IH as [tok [rest [E [Hn Hs]]]]. cbn [Js.split_all].
    destruct (Ascii.eqb c ",") eqn:Hc.
    + apply Ascii.eqb_eq in Hc. subst c.
      exists "", (Js.split_all "," s). repeat split. right. exists s. reflexivity.
    + rewrite E. exists (String c tok), rest. repeat split.
      * simpl. rewrite Hc. exact Hn.
      * destruct Hs as [->|[r ->]]; [now left|]. right. exists r. reflexivity.
Qed.

Lemma trimStart_spec (s : string) :
  exists l, s = l ++ Js.trimStart s
            /\ Js.all_chars Js.is_space l = true
            /\ not_space (Js.first_char (Js.trimStart s)).
Proof.
  induction s as [|c s [l [E [Hl Hf]]]]; simpl.
  - exists "". simpl. auto.
  - destruct (Js.is_space c) eqn:Hc.
    + exists (String c l). simpl. rewrite Hc. repeat split; [congruence|assumption..].
    + exists "". simpl. auto.
Qed.

Lemma trimEnd_spec (s : string) :
  exists r, s = Js.trimEnd s ++ r
            /\ Js.all_chars Js.is_space r = true
            /\ not_space (Js.last_char (Js.trimEnd s))
            /\ (not_space (Js.first_char s) ->
                not_space (Js.first_char (Js.trimEnd s))).
Proof.
  induction s as [|c s [r [E [Hr [Hl _]]]]].
  - exists "". simpl. auto.
  - cbn [Js.trimEnd]. destruct (Js.trimEnd s) as [|d t] eqn:Ht.
    + destruct (Js.is_space c) eqn:Hc.
      * exists (String c r). simpl in *. rewrite Hc.
        split; [congruence|]. split; [assumption|]. split; trivial.
      * exists r. simpl in *.
        split; [congruence|]. split; [assumption|]. split; trivial.
    + exists r. simpl in *.
      split; [congruence|]. split; [assumption|]. split; trivial.
Qed.

Lemma trim_spec (tok : string) : trimmed_of tok (Js.trim tok).
Proof.
  unfold trimmed_of, Js.trim.
  destruct (trimStart_spec tok) as [l [El [Hl Hf]]].
  destruct (trimEnd_spec (Js.trimStart tok)) as [r [Er [Hr [Hlast Hfirst]]]].
  exists l, r. repeat split; auto. congruence.
Qed.

Lemma first_token_unique (a b x y : string) :
  Js.all_chars (fun c => negb (Ascii.eqb c ",")) a = true ->
  Js.all_chars (fun c => negb (Ascii.eqb c ",")) b = true ->
  (x = "" \/ exists r, x = "," ++ r) ->
  (y = "" \/ exists r, y = "," ++ r) ->
  a ++ x = b ++ y -> a = b.
Proof.
  revert b. induction a as [|c a IH]; intros [|d b] Ha Hb Hx Hy E; simpl in *.
  - reflexivity.
  - apply andb_prop in Hb. destruct Hb as [Hd _].
    destruct Hx as [->|[r ->]]; [discriminate|].
    injection E as <- _. discriminate.
  - apply andb_prop in Ha. destruct Ha as [Hc _].
    destruct Hy as [->|[r ->]]; [discriminate|].
    injection E as -> _. discriminate.
  - apply andb_prop in Ha. apply andb_prop in Hb.
    injection E as -> E. f_equal. apply IH; tauto.
Qed.

Lemma first_token_split (s tok : string) :
  first_token_of s tok -> exists rest, Js.split_all "," s = tok :: rest.
Proof.
  intros [Hn Hs]. destruct (split_all_head s) as [tok' [rest [E [Hn' Hs']]]].
  exists rest. rewrite E. f_equal.
  assert (T : forall u, (s = u \/ exists r, s = u ++ "," ++ r) ->
                        exists x, (x = "" \/ exists r, x = "," ++ r) /\ s = u ++ x).
  { intros u [->|[r ->]].
    - exists "". rewrite append_empty_r. auto.
    - exists ("," ++ r). split; [right; exists r|]; reflexivity. }
  destruct (T _ Hs) as [x [Hx Ex]]. destruct (T _ Hs') as [y [Hy Ey]].
  apply (first_token_unique tok' tok y x); congruence.
Qed.

Lemma trimStart_spaces (l u : string) :
  Js.all_chars Js.is_space l = true ->
  not_space (Js.first_char u) ->
  Js.trimStart (l ++ u) = Js.trimStart u.
Proof.
  induction l as [|c l IH]; simpl; intros Hl Hu; [reflexivity|].
  apply andb_prop in Hl. destruct Hl as [-> Hl]. auto.
Qed.

Lemma trimStart_all_spaces (r : string) :
  Js.all_chars Js.is_space r = true -> Js.trimStart r = "".
Proof.
  induction r as [|c r IH]; simpl; intros H; [reflexivity|].
  apply andb_prop in H. destruct H as [-> H]. auto.
Qed.

Lemma trimEnd_all_spaces (r : string) :
  Js.all_chars Js.is_space r = true -> Js.trimEnd r = "".
Proof.
  induction r as [|c r IH]; simpl; intros H; [reflexivity|].
  apply andb_prop in H. destruct H as [-> H]. rewrite IH; auto.
Qed.

Lemma trimEnd_spaces (t r : string) :
  not_space (Js.last_char t) ->
  Js.all_chars Js.is_space r = true ->
  Js.trimEnd (t ++ r) = t.
Proof.
  intros Ht Hr. induction t as [|c t IH]; [now apply trimEnd_all_spaces|].
  cbn [append Js.trimEnd]. destruct t as [|d t].
  - cbn [append]. rewrite (trimEnd_all_spaces r Hr). simpl in Ht. now rewrite Ht.
  - rewrite IH by exact Ht. reflexivity.
Qed.

Lemma trimmed_unique (tok t : string) : trimmed_of tok t -> Js.trim tok = t.
Proof.
  intros [l [r [-> [Hl [Hr [Hf Hlast]]]]]]. unfold Js.trim.
  destruct t as [|c t].
  - cbn [append]. rewrite trimStart_all_spaces; [reflexivity|].
    clear Hf Hlast. induction l as [|c l IH]; simpl in *; [assumption|].
    apply andb_prop in Hl. destruct Hl as [-> Hl]. auto.
  - rewrite trimStart_spaces by assumption.
    cbn [append Js.trimStart]. simpl in Hf. rewrite Hf.
    change (String c (t ++ r)) with (String c t ++ r).
    now apply trimEnd_spaces.
Qed.

(** C8: for a defined value [getFirstHeaderValue] returns the
    first comma-separated token of its string form, trimmed of the
    surrounding white space (there is always such a token, and the
    value returned is the one it trims to); for [undefined] it returns
    [undefined]; and the first value of [a, b, c] is [a]. *)
Theorem getFirstHeaderValue_spec :
  (forall v, exists tok t,
      first_token_of (toString v) tok /\ trimmed_of tok t)
  /\ (forall v tok t,
         first_token_of (toString v) tok -> trimmed_of tok t ->
         getFirstHeaderValue (Some v) = Some t)
  /\ getFirstHeaderValue None = None
  /\ getFirstHeaderValue (Some (HString "a, b, c")) = Some "a".
Proof.
  split; [|split; [|split; reflexivity]].
  - intros v. destruct (split_all_head (toString v)) as [tok [rest [E H]]].
    exists tok, (Js.trim tok). split; [exact H | apply trim_spec].
  - intros v tok t Htok Ht.
    destruct (first_token_split _ _ Htok) as [rest E].
    unfold getFirstHeaderValue, Js.split. rewrite E. simpl.
    f_equal. now apply trimmed_unique.
Qed.

Lemma getFirstHeaderValue_spec_witness :
  first_token_of (toString (HArray [" value1 "; "value2"])) " value1 "
  /\ trimmed_of " value1 " "value1"
  /\ getFirstHeaderValue (Some (HArray [" value1 "; "value2"])) = Some "value1".
Proof.
  assert (A : first_token_of (toString (HArray [" value1 "; "value2"])) " value1 ").
  { split; [reflexivity|]. right. exists "value2". reflexivity. }
  assert (B : trimmed_of " value1 " "value1").
  { exists " ", " ". repeat split; reflexivity. }
  split; [exact A|]. split; [exact B|].
  exact (proj1 (proj2 getFirstHeaderValue_spec) _ _ _ A B).
Defined.

(** ** The matcher *)

Section MatcherFacts.

Variable ic : bool.

Lemma search_eq (p : pattern) (bol : bool) (s : string) :
  search ic p bol s
  = run ic p bol s accept
    || match s with
       | EmptyString => false
       | String _ t => search ic p false t
       end.
Proof. destruct s; reflexivity. Qed.

Lemma search_alt (a b : pattern) (bol : bool) (s : string) :
  search ic (Alt a b) bol s = search ic a bol s || search ic b bol s.
Proof.
  revert bol. induction s as [|c s IH]; intros bol; cbn [search run].
  - now rewrite !orb_false_r.
  - rewrite IH.
    destruct (run ic a bol (String c s) accept), (run ic b bol (String c s) accept),
      (search ic a false s); reflexivity.
Qed.

Lemma search_bol_false (p : pattern) (s : string) :
  search ic (Cat Bol p) false s = false.
Proof. induction s as [|c s IH]; cbn [search run andb orb]; auto. Qed.

(** A pattern that starts with [^] matches at index 0 or nowhere. *)
Lemma search_anchored (p : pattern) (s : string) :
  search ic (Cat Bol p) true s = run ic p true s accept.
Proof.
  rewrite search_eq. cbn [run andb].
  destruct s as [|c s]; [apply orb_false_r|].
  now rewrite search_bol_false, orb_false_r.
Qed.

(** [[class]+$] asks for one character at least, all of the class. *)
Lemma plus_to_the_end (members : list ascii) (s : string) :
  plus_cls ic members s (fun bol' s' => run ic Eol bol' s' accept)
  = nonempty s && Js.all_chars (cls_mem ic members) s.
Proof.
  induction s as [|c s IH]; [reflexivity|].
  cbn [plus_cls Js.all_chars]. rewrite IH.
  change (nonempty (String c s)) with true. cbn [andb].
  destruct (cls_mem ic members c); [|reflexivity]. cbn [andb run].
  destruct s as [|d s]; [reflexivity|].
  change (nonempty (String d s)) with true. cbn [andb].
  apply orb_false_r.
Qed.

Lemma all_chars_ext (f g : ascii -> bool) (s : string) :
  (forall c, f c = g c) -> Js.all_chars f s = Js.all_chars g s.
Proof. intros E. induction s as [|c s IH]; simpl; [reflexivity|]. now rewrite E, IH. Qed.

End MatcherFacts.

(** ** The rules on the characters *)

Lemma host_class (c : ascii) : cls_mem true host_chars c = host_char c.
Proof.
  destruct c as [[|] [|] [|] [|] [|] [|] [|] [|]]; vm_compute; reflexivity.
Qed.

Lemma digit_class (c : ascii) : cls_mem false digits c = Js.is_digit c.
Proof.
  destruct c as [[|] [|] [|] [|] [|] [|] [|] [|]]; vm_compute; reflexivity.
Qed.

Lemma letter_class :
  Forall (fun m => forall c,
              cls_mem true [m] c = Ascii.eqb (Headers.byte_lower_char c) m)
         ["h"; "t"; "p"; "s"]%char.
Proof.
  repeat constructor; intros c;
    destruct c as [[|] [|] [|] [|] [|] [|] [|] [|]]; vm_compute; reflexivity.
Qed.

Lemma host_regex_spec (s : string) :
  test VALID_HOST_REGEX s = valid_host_token s.
Proof.
  unfold test, VALID_HOST_REGEX, valid_host_token. cbn [source ignoreCase].
  rewrite search_anchored. cbn [run]. rewrite plus_to_the_end.
  f_equal. apply all_chars_ext, host_class.
Qed.

Lemma port_regex_spec (s : string) :
  test VALID_PORT_REGEX s = all_digits s.
Proof.
  unfold test, VALID_PORT_REGEX, all_digits. cbn [source ignoreCase].
  rewrite search_anchored. cbn [run]. rewrite plus_to_the_end.
  f_equal. apply all_chars_ext, digit_class.
Qed.

Lemma proto_regex_spec (s : string) :
  test VALID_PROTO_REGEX s = http_or_https s.
Proof.
  pose proof letter_class as L.
  inversion_clear L as [|? ? Lh L1]. inversion_clear L1 as [|? ? Lt L2].
  inversion_clear L2 as [|? ? Lp L3]. inversion_clear L3 as [|? ? Ls _].
  unfold test, VALID_PROTO_REGEX, http_or_https. cbn [source ignoreCase].
  rewrite search_anchored. unfold lit.
  destruct s as [|c1 [|c2 [|c3 [|c4 [|c5 [|c6 s]]]]]];
    cbn [run Headers.byte_lowercase String.eqb andb orb accept];
    rewrite ?Lh, ?Lt, ?Lp, ?Ls;
    repeat match goal with
           | |- context [Ascii.eqb (Headers.byte_lower_char ?a) ?b] =>
               destruct (Ascii.eqb (Headers.byte_lower_char a) b)
           end;
    reflexivity.
Qed.

(** ** The rule on [x-forwarded-prefix] *)

Section PrefixRegex.

Lemma cls_slashes (c : ascii) : cls_mem false slashes c = is_sep c.
Proof.
  unfold cls_mem, slashes, is_sep, canonicalize. cbn [existsb andb].
  rewrite (Ascii.eqb_sym "/" c), (Ascii.eqb_sym "\" c).
  now rewrite orb_false_r.
Qed.

Lemma cls_dot (c : ascii) : cls_mem false ["."%char] c = Ascii.eqb c ".".
Proof.
  unfold cls_mem, canonicalize. cbn [existsb andb].
  now rewrite (Ascii.eqb_sym "." c), orb_false_r.
Qed.

Lemma search_two_slashes (s : string) :
  search false prefix_two_slashes true s = starts_with_two_seps s.
Proof.
  rewrite search_eq. unfold prefix_two_slashes.
  replace (match s with
           | EmptyString => false
           | String _ t => search false (Cat Bol (Cat (Cls slashes) (Cls slashes))) false t
           end) with false
    by (destruct s; [reflexivity | symmetry; apply search_bol_false]).
  rewrite orb_false_r.
  destruct s as [|a [|b s]]; cbn [run andb starts_with_two_seps].
  - reflexivity.
  - now rewrite andb_false_r.
  - rewrite !cls_slashes. unfold accept. now rewrite andb_true_r.
Qed.

Lemma path_segments_cons (s : string) :
  path_segments s = first_segment s :: later_segments s.
Proof.
  unfold first_segment, later_segments.
  induction s as [|c s IH]; cbn [path_segments]; [reflexivity|].
  destruct (is_sep c); [reflexivity|]. rewrite IH. reflexivity.
Qed.

Lemma segments_step (c : ascii) (s : string) :
  path_segments (String c s)
  = if is_sep c then EmptyString :: first_segment s :: later_segments s
    else String c (first_segment s) :: later_segments s.
Proof. cbn [path_segments]. rewrite path_segments_cons. reflexivity. Qed.

Lemma first_segment_step (c : ascii) (s : string) :
  first_segment (String c s)
  = if is_sep c then EmptyString else String c (first_segment s).
Proof.
  unfold first_segment at 1. rewrite segments_step. now destruct (is_sep c).
Qed.

Lemma later_segments_step (c : ascii) (s : string) :
  later_segments (String c s)
  = if is_sep c then first_segment s :: later_segments s else later_segments s.
Proof.
  unfold later_segments at 1. rewrite segments_step. now destruct (is_sep c).
Qed.

Lemma run_dots (bol : bool) (s : string) :
  run false prefix_dots bol s accept = is_dot_segment (first_segment s).
Proof.
  unfold is_dot_segment.
  destruct s as [|c1 s]; [reflexivity|].
  rewrite first_segment_step. cbn [run prefix_dots lit]. rewrite cls_dot.
  destruct (Ascii.eqb c1 ".") eqn:H1.
  2:{ destruct (is_sep c1); cbn [andb String.eqb]; rewrite ?H1; reflexivity. }
  apply Ascii.eqb_eq in H1. subst c1.
  change (is_sep ".") with false. cbv iota.
  change (String.eqb (String "." (first_segment s)) ".")
    with (String.eqb (first_segment s) "").
  change (String.eqb (String "." (first_segment s)) "..")
    with (String.eqb (first_segment s) ".").
  cbn [andb].
  destruct s as [|c2 s]; [reflexivity|].
  rewrite first_segment_step, cls_dot, cls_slashes.
  destruct (Ascii.eqb c2 ".") eqn:H2.
  2:{ destruct (is_sep c2); cbn [andb orb String.eqb]; rewrite ?H2; reflexivity. }
  apply Ascii.eqb_eq in H2. subst c2.
  change (is_sep ".") with false. cbv iota.
  change (String.eqb (String "." (first_segment s)) "")
    with false.
  change (String.eqb (String "." (first_segment s)) ".")
    with (String.eqb (first_segment s) "").
  cbn [andb orb].
  destruct s as [|c3 s]; [reflexivity|].
  rewrite first_segment_step, cls_slashes.
  destruct (is_sep c3); reflexivity.
Qed.

Lemma run_segment (bol : bool) (s : string) :
  run false prefix_segment bol s accept
  = (bol && is_dot_segment (first_segment s))
    || match s with
       | EmptyString => false
       | String c t => is_sep c && is_dot_segment (first_segment t)
       end.
Proof.
  unfold prefix_segment. cbn [run].
  rewrite run_dots. destruct s as [|c t]; [reflexivity|].
  now rewrite cls_slashes, run_dots.
Qed.

Lemma search_segment_later (s : string) :
  search false prefix_segment false s = existsb is_dot_segment (later_segments s).
Proof.
  induction s as [|c s IH]; [reflexivity|].
  rewrite search_eq, run_segment, IH, later_segments_step.
  cbn [andb orb]. destruct (is_sep c); reflexivity.
Qed.

Lemma search_segment (s : string) :
  search false prefix_segment true s = existsb is_dot_segment (path_segments s).
Proof.
  rewrite path_segments_cons. cbn [existsb].
  rewrite search_eq, run_segment. cbn [andb].
  destruct s as [|c s].
  - now rewrite !orb_false_r.
  - rewrite search_segment_later, later_segments_step.
    destruct (is_sep c); cbn [andb orb existsb];
      now rewrite ?orb_false_r, ?orb_assoc.
Qed.

Lemma prefix_regex_spec (s : string) :
  test INVALID_PREFIX_REGEX s = prefix_rejected s.
Proof.
  unfold test, INVALID_PREFIX_REGEX, prefix_rejected.
  cbn [source ignoreCase]. rewrite search_alt.
    now rewrite search_two_slashes, search_segment.
Qed.

End PrefixRegex.

(** ** The upfront validation *)

Lemma throw_if_eq (v : option string) (cond : string -> bool) (e : Error) :
  throw_if v cond e = if rule_fails v cond then Throw e else Return tt.
Proof. destruct v as [[|c t]|]; reflexivity. Qed.

Lemma validateHeaders_cascade (request : Request) :
  validateHeaders request =
  if host_chars_fail request "host" then Throw (HeaderCharsError "host")
  else if host_chars_fail request "x-forwarded-host"
       then Throw (HeaderCharsError "x-forwarded-host")
  else if port_fails request then Throw PortError
  else if proto_fails request then Throw ProtoError
  else if prefix_fails request then Throw PrefixError
  else Return tt.
Proof.
  unfold validateHeaders, HOST_HEADERS_TO_VALIDATE. cbn [for_of].
  rewrite !throw_if_eq.
  unfold host_chars_fail, port_fails, proto_fails, prefix_fails.
  destruct (rule_fails (header_token (headers request) "host") _); [reflexivity|].
  destruct (rule_fails (header_token (headers request) "x-forwarded-host") _);
    [reflexivity|].
  destruct (rule_fails (header_token (headers request) "x-forwarded-port") _);
    [reflexivity|].
  destruct (rule_fails (header_token (headers request) "x-forwarded-proto") _);
    [reflexivity|].
  reflexivity.
Qed.

Lemma validateRequest_cascade (parse_url : string -> option URL)
      (request : Request) (allowedHosts : list string) :
  validateRequest parse_url request allowedHosts =
  if host_chars_fail request "host" then Throw (HeaderCharsError "host")
  else if host_chars_fail request "x-forwarded-host"
       then Throw (HeaderCharsError "x-forwarded-host")
  else if port_fails request then Throw PortError
  else if proto_fails request then Throw ProtoError
  else if prefix_fails request then Throw PrefixError
  else url_step parse_url request allowedHosts.
Proof.
  unfold validateRequest. rewrite validateHeaders_cascade.
  destruct (host_chars_fail request "host"); [reflexivity|].
  destruct (host_chars_fail request "x-forwarded-host"); [reflexivity|].
  destruct (port_fails request); [reflexivity|].
  destruct (proto_fails request); [reflexivity|].
  destruct (prefix_fails request); [reflexivity|].
  cbn [bind]. unfold url_step, new_URL, validateUrl.
  destruct (parse_url (url request)) as [u|]; [|reflexivity].
  cbn [bind]. now destruct (isHostAllowed (hostname u) allowedHosts).
Qed.

Lemma rule_fails_ext (tok : option string) (f g : string -> bool) :
  (forall t, f t = g t) -> rule_fails tok f = rule_fails tok g.
Proof. intros E. destruct tok as [[|c t]|]; simpl; auto. Qed.

(** C6: [validateRequest] goes through its checks in one order, the
    characters of [host] and of [x-forwarded-host], then
    [x-forwarded-port], [x-forwarded-proto], [x-forwarded-prefix] and
    at last the hostname of the URL; its outcome is the error of the
    first check that fails, whatever the later ones would say, and a
    plain return when none fails.  Each check on a header fails when
    the first token is there, is not empty and breaks the rule of the
    header. *)
Theorem validateRequest_fail_fast :
  forall parse_url request allowedHosts,
    validateRequest parse_url request allowedHosts
    = (if host_chars_fail request "host" then Throw (HeaderCharsError "host")
       else if host_chars_fail request "x-forwarded-host"
            then Throw (HeaderCharsError "x-forwarded-host")
       else if port_fails request then Throw PortError
       else if proto_fails request then Throw ProtoError
       else if prefix_fails request then Throw PrefixError
       else url_step parse_url request allowedHosts)
    /\ (forall name,
           host_chars_fail request name
           = rule_fails (header_token (headers request) name)
                        (fun t => negb (valid_host_token t)))
    /\ port_fails request
       = rule_fails (header_token (headers request) "x-forwarded-port")
                    (fun t => negb (all_digits t))
    /\ proto_fails request
       = rule_fails (header_token (headers request) "x-forwarded-proto")
                    (fun t => negb (http_or_https t))
    /\ prefix_fails request
       = rule_fails (header_token (headers request) "x-forwarded-prefix")
                    prefix_rejected.
Proof.
  intros parse_url request allowedHosts.
  split; [apply validateRequest_cascade|].
  split; [|split; [|split]].
  - intros name. apply rule_fails_ext. intros t. now rewrite host_regex_spec.
  - apply rule_fails_ext. intros t. now rewrite port_regex_spec.
  - apply rule_fails_ext. intros t. now rewrite proto_regex_spec.
  - apply rule_fails_ext, prefix_regex_spec.
Qed.

(** ** The prefix rule inside [validateRequest] *)

(** C7 as the specification words it fails: this request has a
    prefix that starts with two slashes, and [validateRequest] raises
    the error of the port, which is checked before, not the one of the
    prefix. *)
Lemma prefix_error_counterexample :
  header_token (headers request_bad_port_and_prefix) "x-forwarded-prefix"
  = Some "//evil"
  /\ prefix_rejected "//evil" = true
  /\ validateRequest Whatwg.parse request_bad_port_and_prefix allowed_example
     = Throw PortError
  /\ validateRequest Whatwg.parse request_bad_port_and_prefix allowed_example
     <> Throw PrefixError.
Proof. repeat split; try reflexivity. discriminate. Qed.

(** C7, amended: for a request whose [x-forwarded-prefix] header
    has the first token [tok], [validateRequest] raises the error of
    the prefix exactly when the checks before it pass (characters of
    the two host headers, port, protocol) and [tok] starts with two
    slashes or backslashes or has a piece, between slashes, backslashes
    and the ends, that is a dot or two dots; a rejected [tok] never
    lets the request through; [//evil] and [/app/../secret] are
    rejected and [/app] is not. *)
Theorem prefix_rule_in_validateRequest :
  forall parse_url request allowedHosts tok,
    header_token (headers request) "x-forwarded-prefix" = Some tok ->
    (validateRequest parse_url request allowedHosts = Throw PrefixError
     <-> (host_chars_fail request "host" = false
          /\ host_chars_fail request "x-forwarded-host" = false
          /\ port_fails request = false
          /\ proto_fails request = false
          /\ prefix_rejected tok = true))
    /\ (prefix_rejected tok = true ->
        exists e, validateRequest parse_url request allowedHosts = Throw e)
    /\ prefix_rejected "//evil" = true
    /\ prefix_rejected "/app/../secret" = true
    /\ prefix_rejected "/app" = false.
Proof.
  intros parse_url request allowedHosts tok Htok.
  assert (P : prefix_fails request = prefix_rejected tok).
  { unfold prefix_fails. rewrite Htok. destruct tok as [|c t]; [reflexivity|].
    cbn [rule_fails]. apply prefix_regex_spec. }
  rewrite validateRequest_cascade, P.
  split; [|split; [|repeat split]].
  - destruct (host_chars_fail request "host");
      [split; [discriminate | intros [? _]; discriminate]|].
    destruct (host_chars_fail request "x-forwarded-host");
      [split; [discriminate | intros [_ [? _]]; discriminate]|].
    destruct (port_fails request);
      [split; [discriminate | intros [_ [_ [? _]]]; discriminate]|].
    destruct (proto_fails request);
      [split; [discriminate | intros [_ [_ [_ [? _]]]]; discriminate]|].
    destruct (prefix_rejected tok); [tauto|].
    split; [|intros [_ [_ [_ [_ ?]]]]; discriminate].
    unfold url_step. destruct (parse_url (url request)) as [u|]; [|discriminate].
    destruct (isHostAllowed (hostname u) allowedHosts); discriminate.
  - intros ->.
    destruct (host_chars_fail request "host"); [eauto|].
    destruct (host_chars_fail request "x-forwarded-host"); [eauto|].
    destruct (port_fails request); [eauto|].
    destruct (proto_fails request); eauto.
Qed.

Lemma prefix_rule_in_validateRequest_witness :
  header_token (headers request_dot_segment) "x-forwarded-prefix"
  = Some "/app/../secret"
  /\ validateRequest Whatwg.parse request_dot_segment allowed_example
     = Throw PrefixError.
Proof.
  split; [reflexivity|].
  apply (proj1 (prefix_rule_in_validateRequest Whatwg.parse request_dot_segment
                  allowed_example "/app/../secret" eq_refl)).
  repeat split.
Defined.

(** ** Reading headers from the clone *)

Section Deferred.

Variable parse_url : string -> option URL.

Lemma verifyHostAllowed_eq (name value : string) (allowedHosts : list string) :
  verifyHostAllowed parse_url name value allowedHosts =
  match getFirstHeaderValue (Some (HString value)) with
  | Some (String _ _ as tok) => host_check parse_url name tok allowedHosts
  | _ => Return tt
  end.
Proof.
  unfold verifyHostAllowed, host_check, URL_canParse, new_URL.
  destruct (getFirstHeaderValue (Some (HString value))) as [[|c t]|];
    try reflexivity.
  destruct (parse_url ("http://" ++ String c t)) as [u|]; [|reflexivity].
  cbn [negb bind]. now destruct (isHostAllowed (hostname u) allowedHosts).
Qed.

Lemma validateHeader_eq (name : string) (value : option string)
      (allowedHosts : list string) (p : Promise) :
  validateHeader parse_url name value allowedHosts p =
  match value with
  | Some (String _ _ as v) =>
      if sensitive name
      then checked (verifyHostAllowed parse_url name v allowedHosts) tt p
      else (Return tt, p)
  | _ => (Return tt, p)
  end.
Proof.
  unfold validateHeader, sensitive, checked.
  destruct value as [[|c t]|]; try reflexivity.
  destruct (Set_has HOST_HEADERS_TO_VALIDATE (Js.toLowerCase name));
    [|reflexivity].
  cbn [negb].
  now destruct (verifyHostAllowed parse_url name (String c t) allowedHosts) as [[]|e].
Qed.

Lemma patched_get_eq (c : Patched) (name : string) (p : Promise) :
  patched_get parse_url c name p =
  match Headers.get (headers (clonedReq c)) name with
  | Some (String _ _ as v) =>
      if sensitive name
      then checked (verifyHostAllowed parse_url name v (allowedHosts_of c))
                   (Some v) p
      else (Return (Some v), p)
  | other => (Return other, p)
  end.
Proof.
  unfold patched_get.
  destruct (Headers.get (headers (clonedReq c)) name) as [[|a t]|];
    try reflexivity.
  cbn [truthy negb]. rewrite validateHeader_eq.
  destruct (sensitive name); [|reflexivity].
  now destruct (verifyHostAllowed parse_url name (String a t) (allowedHosts_of c)).
Qed.

Lemma patched_next_eq (c : Patched) (key value : string)
      (rest : list (string * string)) (p : Promise) :
  patched_next parse_url c ((key, value) :: rest) p =
  let '(r, p') :=
    match value with
    | String _ _ =>
        if sensitive key
        then checked (verifyHostAllowed parse_url key value (allowedHosts_of c))
                     (Some (key, value)) p
        else (Return (Some (key, value)), p)
    | EmptyString => (Return (Some (key, value)), p)
    end in
  (r, rest, p').
Proof.
  unfold patched_next. rewrite validateHeader_eq.
  destruct value as [|a t]; [reflexivity|].
  destruct (sensitive key); [|reflexivity].
  now destruct (verifyHostAllowed parse_url key (String a t) (allowedHosts_of c)).
Qed.

Lemma patched_values_eq (c : Patched) (p : Promise) :
  patched_values parse_url c p =
  checked (values_check parse_url c "host" ;; values_check parse_url c "x-forwarded-host")
          (Headers.values (headers (clonedReq c))) p.
Proof.
  assert (Step : forall name p0,
             sensitive name = true ->
             validateHeader parse_url name
               (Headers.get (headers (clonedReq c)) name) (allowedHosts_of c) p0
             = checked (values_check parse_url c name) tt p0).
  { intros name p0 H. rewrite validateHeader_eq. unfold values_check.
    rewrite H. now destruct (Headers.get (headers (clonedReq c)) name) as [[|a t]|]. }
  unfold patched_values, HOST_HEADERS_TO_VALIDATE. cbn [values_loop].
  rewrite (Step "host") by reflexivity.
  destruct (values_check parse_url c "host") as [[]|e]; cbn [checked bind]; [|reflexivity].
  rewrite (Step "x-forwarded-host") by reflexivity.
  now destruct (values_check parse_url c "x-forwarded-host") as [[]|e].
Qed.

(** The loop over the entries is a run of [next()] calls. *)
Lemma for_of_entries_next (c : Patched) (it : list (string * string))
      (p : Promise) :
  for_of_entries parse_url c it p =
  match patched_next parse_url c it p with
  | (Return None, _, p') => (Return [], p')
  | (Return (Some entry), rest, p') =>
      match for_of_entries parse_url c rest p' with
      | (Return l, p'') => (Return (entry :: l), p'')
      | (Throw e, p'') => (Throw e, p'')
      end
  | (Throw e, _, p') => (Throw e, p')
  end.
Proof.
  destruct it as [|[key value] rest]; [reflexivity|].
  cbn [for_of_entries patched_next].
  now destruct (validateHeader parse_url key (Some value) (allowedHosts_of c) p)
    as [[[]|e] p'].
Qed.

End Deferred.

(** ** Header names *)

Section Names.

(** The two ways of lower-casing differ on code units of 128 and
    more only, and neither brings one of those below 128. *)
Lemma lower_chars_agree (c : ascii) :
  Js.lower_char c = Headers.byte_lower_char c
  \/ ((128 <=? Js.code (Js.lower_char c))%nat = true
      /\ (128 <=? Js.code (Headers.byte_lower_char c))%nat = true).
Proof.
  destruct c as [[|] [|] [|] [|] [|] [|] [|] [|]];
    vm_compute; auto.
Qed.

Lemma lowercase_ascii_iff (s t : string) :
  is_ascii t = true ->
  (Js.toLowerCase s = t <-> Headers.byte_lowercase s = t).
Proof.
  revert t. induction s as [|c s IH]; intros [|d t] Ht; simpl;
    try (split; congruence).
  unfold is_ascii in Ht. simpl in Ht. apply andb_prop in Ht.
  destruct Ht as [Hd Ht]. specialize (IH t Ht).
  apply Nat.ltb_lt in Hd.
  destruct (lower_chars_agree c) as [E|[H1 H2]].
  - rewrite E. split; intros H; injection H as -> H; f_equal; now apply IH.
  - apply Nat.leb_le in H1, H2.
    split; intros H; injection H as <- _; lia.
Qed.

Lemma sensitive_same_name (name : string) :
  sensitive name
  = Headers.same_name name "host" || Headers.same_name name "x-forwarded-host".
Proof.
  unfold sensitive, Set_has, HOST_HEADERS_TO_VALIDATE, Headers.same_name.
  cbn [existsb]. rewrite orb_false_r.
  change (Headers.byte_lowercase "host") with "host".
  change (Headers.byte_lowercase "x-forwarded-host") with "x-forwarded-host".
  assert (Q : forall t, is_ascii t = true ->
              String.eqb (Js.toLowerCase name) t
              = String.eqb (Headers.byte_lowercase name) t).
  { intros t Ht. pose proof (lowercase_ascii_iff name t Ht) as I.
    destruct (String.eqb_spec (Js.toLowerCase name) t) as [E|N];
      destruct (String.eqb_spec (Headers.byte_lowercase name) t) as [E'|N'];
      tauto. }
  rewrite <- !Q by reflexivity. reflexivity.
Qed.

Lemma byte_lower_char_idem (c : ascii) :
  Headers.byte_lower_char (Headers.byte_lower_char c) = Headers.byte_lower_char c.
Proof.
  destruct c as [[|] [|] [|] [|] [|] [|] [|] [|]]; reflexivity.
Qed.

Lemma byte_lowercase_idem (s : string) :
  Headers.byte_lowercase (Headers.byte_lowercase s) = Headers.byte_lowercase s.
Proof.
  induction s as [|c s IH]; simpl; [reflexivity|].
  now rewrite byte_lower_char_idem, IH.
Qed.

Lemma get_same_name (h : Headers.t) (a b : string) :
  Headers.same_name a b = true -> Headers.get h a = Headers.get h b.
Proof.
  unfold Headers.same_name, Headers.get, Headers.values_of. intros E.
  apply String.eqb_eq in E.
  replace (filter (fun nv => Headers.same_name (fst nv) a) h)
    with (filter (fun nv => Headers.same_name (fst nv) b) h); [reflexivity|].
  apply filter_ext. intros nv. unfold Headers.same_name. now rewrite E.
Qed.

Lemma in_insert_name (k n : string) (l : list string) :
  In k (Headers.insert_name n l) <-> k = n \/ In k l.
Proof.
  induction l as [|m l IH]; simpl.
  - intuition congruence.
  - destruct (String.compare n m) eqn:C; simpl.
    + apply String.compare_eq_iff in C. subst m. intuition congruence.
    + intuition congruence.
    + rewrite IH. intuition congruence.
Qed.

Lemma in_names (k : string) (h : Headers.t) :
  In k (Headers.names h)
  <-> exists nv, In nv h /\ Headers.byte_lowercase (fst nv) = k.
Proof.
  unfold Headers.names. induction h as [|nv h IH]; simpl.
  - split; [tauto | intros [x [[] _]]].
  - rewrite in_insert_name, IH. split.
    + intros [->|[x [Hx E]]]; [exists nv; auto | exists x; auto].
    + intros [x [[<-|Hx] E]]; [left; congruence | right; eauto].
Qed.

Lemma entries_key_present (h : Headers.t) (k v : string) :
  In (k, v) (Headers.entries h) -> Headers.get h k <> None.
Proof.
  unfold Headers.entries. rewrite in_flat_map. intros [n [Hn Hin]].
  assert (K : k = n).
  { destruct (String.eqb n "set-cookie").
    - apply in_map_iff in Hin. destruct Hin as [x [E _]]. congruence.
    - destruct (Headers.get h n); simpl in Hin; [|tauto].
      destruct Hin as [E|[]]. congruence. }
  subst n. apply in_names in Hn. destruct Hn as [nv [Hnv E]].
  unfold Headers.get, Headers.values_of.
  assert (F : In nv (filter (fun x => Headers.same_name (fst x) k) h)).
  { apply filter_In. split; [assumption|].
    unfold Headers.same_name. rewrite <- E, byte_lowercase_idem.
    apply String.eqb_refl. }
  destruct (filter (fun x => Headers.same_name (fst x) k) h); [destruct F|].
  discriminate.
Qed.

(** A request without [host] and [x-forwarded-host] headers has no
    entry that [validateHeader] looks at. *)
Lemma no_sensitive_entries (h : Headers.t) :
  Headers.get h "host" = None ->
  Headers.get h "x-forwarded-host" = None ->
  Forall (fun kv => sensitive (fst kv) = false) (Headers.entries h).
Proof.
  intros H1 H2. apply Forall_forall. intros [k v] Hin. cbn [fst].
  apply entries_key_present in Hin. rewrite sensitive_same_name.
  destruct (Headers.same_name k "host") eqn:A.
  - apply (get_same_name h) in A. congruence.
  - destruct (Headers.same_name k "x-forwarded-host") eqn:B; [|reflexivity].
    apply (get_same_name h) in B. congruence.
Qed.

End Names.

(** ** The allow-list and the host headers *)

(** C1 as the specification words it fails: the [host] header of
    this request has only allowed characters and names a host that the
    allow-list does not hold, and [validateRequest] returns. *)
Lemma upfront_host_counterexample :
  header_token (headers request_attacker) "host" = Some "attacker.com"
  /\ test VALID_HOST_REGEX "attacker.com" = true
  /\ Whatwg.parse "http://attacker.com" = Some {| hostname := "attacker.com" |}
  /\ isHostAllowed "attacker.com" allowed_example = false
  /\ validateRequest Whatwg.parse request_attacker allowed_example = Return tt.
Proof. repeat split. Qed.

Lemma validateRequest_errors (parse_url : string -> option URL)
      (request : Request) (allowedHosts : list string) (e : Error) :
  validateRequest parse_url request allowedHosts = Throw e ->
  match e with
  | HeaderUnparsableError _ | HeaderNotAllowedError _ _ => False
  | _ => True
  end.
Proof.
  rewrite validateRequest_cascade. unfold url_step.
  repeat match goal with
         | |- context [if ?b then _ else _] => destruct b
         | |- context [match parse_url ?x with _ => _ end] => destruct (parse_url x)
         end;
    intros H; inversion H; exact I.
Qed.

(** C1, amended: when the first token of a [host] or
    [x-forwarded-host] header parses, behind [http://], to a hostname
    that the allow-list neither holds nor matches by a wildcard,
    [verifyHostAllowed] raises the allow-list error naming the header
    and the token, and so does a read of that header from the clone of
    [cloneRequestAndPatchHeaders], which resolves the promise with it.
    The upfront [validateRequest] never raises that error.  The text of
    the error for [host] and [attacker.com] is the one of the
    specification. *)
Theorem host_header_allow_list :
  forall parse_url request allowedHosts name value tok u p,
    sensitive name = true ->
    Headers.get (headers request) name = Some value ->
    getFirstHeaderValue (Some (HString value)) = Some tok ->
    tok <> "" ->
    parse_url ("http://" ++ tok) = Some u ->
    isHostAllowed (hostname u) allowedHosts = false ->
    verifyHostAllowed parse_url name value allowedHosts
    = Throw (HeaderNotAllowedError name tok)
    /\ patched_get parse_url
         (fst (cloneRequestAndPatchHeaders request allowedHosts)) name p
       = (Throw (HeaderNotAllowedError name tok),
          resolve p (HeaderNotAllowedError name tok))
    /\ (forall n v,
           validateRequest parse_url request allowedHosts
           <> Throw (HeaderNotAllowedError n v))
    /\ message (HeaderNotAllowedError "host" "attacker.com")
       = "Header " ++ dq ++ "host" ++ dq ++ " with value "
           ++ dq ++ "attacker.com" ++ dq ++ " is not allowed.".
Proof.
  intros parse_url request allowedHosts name value tok u p
         Hs Hget Htok Hne Hparse Hno.
  assert (V : verifyHostAllowed parse_url name value allowedHosts
              = Throw (HeaderNotAllowedError name tok)).
  { rewrite verifyHostAllowed_eq, Htok. destruct tok as [|a t]; [congruence|].
    unfold host_check. now rewrite Hparse, Hno. }
  split; [exact V|]. split; [|split; [|reflexivity]].
  - rewrite patched_get_eq. cbn [fst cloneRequestAndPatchHeaders clonedReq allowedHosts_of].
    rewrite Hget. destruct value as [|a t].
    + compute in Htok. congruence.
    + now rewrite Hs, V.
  - intros n v H. exact (validateRequest_errors _ _ _ _ H).
Qed.

Lemma host_header_allow_list_witness :
  patched_get Whatwg.parse
    (fst (cloneRequestAndPatchHeaders request_attacker allowed_example)) "host" None
  = (Throw (HeaderNotAllowedError "host" "attacker.com"),
     Some (HeaderNotAllowedError "host" "attacker.com")).
Proof.
  apply (host_header_allow_list Whatwg.parse request_attacker allowed_example
           "host" "attacker.com" "attacker.com" {| hostname := "attacker.com" |} None);
    try reflexivity.
  discriminate.
Defined.

(** ** What a read from the clone checks *)

(** C2 as the specification words it fails: the [host] header of
    this request does not match the character class, and it is read
    from the clone, in each of the three ways, without an error and
    without the promise being resolved. *)
Lemma deferred_class_counterexample :
  Headers.get (headers request_path_host) "host" = Some "api.example.com/x"
  /\ test VALID_HOST_REGEX "api.example.com/x" = false
  /\ patched_get Whatwg.parse
       (fst (cloneRequestAndPatchHeaders request_path_host allowed_example))
       "host" None
     = (Return (Some "api.example.com/x"), None)
  /\ patched_values Whatwg.parse
       (fst (cloneRequestAndPatchHeaders request_path_host allowed_example)) None
     = (Return ["api.example.com/x"], None)
  /\ patched_next Whatwg.parse
       (fst (cloneRequestAndPatchHeaders request_path_host allowed_example))
       (patched_entries
          (fst (cloneRequestAndPatchHeaders request_path_host allowed_example)))
       None
     = (Return (Some ("host", "api.example.com/x")), [], None).
Proof. repeat split. Qed.

(** C2, amended: in the clone, a read of a [host] or
    [x-forwarded-host] header whose value is not empty, by lookup, by
    a step over the entries or on the way to the values, runs
    [verifyHostAllowed] on the value, and its outcome is the one of
    that check; the check asks the first token, when not empty, to
    parse behind [http://] and the hostname parsed to be allowed, and
    tests no character class.  When [bad host] does not parse, a
    lookup and a step over the entries that read this value raise the
    error of an unparsable header, and the call of [values()] raises
    the error of the first of [host] and [x-forwarded-host] that
    fails, which is that same error unless [host] fails before with
    another; each resolves the promise with the error it raises. *)
Theorem patched_reads_verify_host :
  forall parse_url request allowedHosts p,
    let c := fst (cloneRequestAndPatchHeaders request allowedHosts) in
    (forall name v,
        sensitive name = true ->
        Headers.get (headers request) name = Some v -> v <> "" ->
        patched_get parse_url c name p
        = checked (verifyHostAllowed parse_url name v allowedHosts) (Some v) p)
    /\ (forall key v rest,
           sensitive key = true -> v <> "" ->
           patched_next parse_url c ((key, v) :: rest) p
           = let (r, p') := checked (verifyHostAllowed parse_url key v allowedHosts)
                                    (Some (key, v)) p in
             (r, rest, p'))
    /\ patched_values parse_url c p
       = checked (values_check parse_url c "host" ;;
                  values_check parse_url c "x-forwarded-host")
                 (Headers.values (headers request)) p
    /\ (forall name v,
           verifyHostAllowed parse_url name v allowedHosts
           = match getFirstHeaderValue (Some (HString v)) with
             | Some (String _ _ as tok) => host_check parse_url name tok allowedHosts
             | _ => Return tt
             end)
    /\ (parse_url "http://bad host" = None ->
        forall name,
          sensitive name = true ->
          Headers.get (headers request) name = Some "bad host" ->
          patched_get parse_url c name p = raises (HeaderUnparsableError name) p
          /\ (forall rest,
                 patched_next parse_url c ((name, "bad host") :: rest) p
                 = (Throw (HeaderUnparsableError name), rest,
                    resolve p (HeaderUnparsableError name)))
          /\ patched_values parse_url c p
             = raises (match values_check parse_url c "host" with
                       | Throw e => e
                       | Return _ => HeaderUnparsableError "x-forwarded-host"
                       end) p).
Proof.
  intros parse_url request allowedHosts p c. subst c.
  cbn [fst cloneRequestAndPatchHeaders].
  split; [|split; [|split; [|split]]].
  - intros name v Hs Hget Hv. rewrite patched_get_eq.
    cbn [clonedReq allowedHosts_of]. rewrite Hget, Hs.
    destruct v; [congruence | reflexivity].
  - intros key v rest Hs Hv. rewrite patched_next_eq. rewrite Hs.
    destruct v; [congruence | reflexivity].
  - apply patched_values_eq.
  - intros name v. apply verifyHostAllowed_eq.
  - intros Hbad name Hs Hget.
    assert (V : forall n, verifyHostAllowed parse_url n "bad host" allowedHosts
                          = Throw (HeaderUnparsableError n)).
    { intros n. rewrite verifyHostAllowed_eq.
      change (getFirstHeaderValue (Some (HString "bad host"))) with (Some "bad host").
      unfold host_check.
      change ("http://" ++ "bad host") with "http://bad host". now rewrite Hbad. }
    split; [|split].
    + rewrite patched_get_eq. cbn [clonedReq allowedHosts_of].
      now rewrite Hget, Hs, V.
    + intros rest. rewrite patched_next_eq, Hs.
      cbn [allowedHosts_of]. now rewrite V.
    + rewrite patched_values_eq.
      rewrite sensitive_same_name in Hs.
      destruct (Headers.same_name name "host") eqn:A.
      * assert (H : values_check parse_url
                      {| clonedReq := request; allowedHosts_of := allowedHosts |}
                      "host" = Throw (HeaderUnparsableError "host")).
        { unfold values_check. cbn [clonedReq allowedHosts_of].
          now rewrite <- (get_same_name (headers request) _ _ A), Hget, V. }
        now rewrite H.
      * cbn [orb] in Hs.
        assert (X : values_check parse_url
                      {| clonedReq := request; allowedHosts_of := allowedHosts |}
                      "x-forwarded-host"
                    = Throw (HeaderUnparsableError "x-forwarded-host")).
        { unfold values_check. cbn [clonedReq allowedHosts_of].
          now rewrite <- (get_same_name (headers request) _ _ Hs), Hget, V. }
        rewrite X.
        now destruct (values_check parse_url
                        {| clonedReq := request; allowedHosts_of := allowedHosts |}
                        "host") as [[]|e].
Qed.

Lemma patched_reads_verify_host_witness :
  patched_get Whatwg.parse
    (fst (cloneRequestAndPatchHeaders request_bad_host allowed_example))
    "X-Forwarded-Host" None
  = (Throw (HeaderUnparsableError "X-Forwarded-Host"),
     Some (HeaderUnparsableError "X-Forwarded-Host")).
Proof.
  refine (proj1 (proj2 (proj2 (proj2 (proj2
            (patched_reads_verify_host Whatwg.parse request_bad_host
               allowed_example None)))) _ "X-Forwarded-Host" _ _));
    reflexivity.
Defined.

(** ** The outcome promise *)

Lemma checked_mirrored {A : Type} (check : result unit) (a : A) (p : Promise) :
  mirrored (checked check a p) p.
Proof. destruct check; reflexivity. Qed.

Lemma patched_get_mirrored (parse_url : string -> option URL) (c : Patched)
      (name : string) (p : Promise) :
  mirrored (patched_get parse_url c name p) p.
Proof.
  rewrite patched_get_eq.
  destruct (Headers.get (headers (clonedReq c)) name) as [[|a t]|];
    try reflexivity.
  destruct (sensitive name); [apply checked_mirrored | reflexivity].
Qed.

Lemma patched_next_mirrored (parse_url : string -> option URL) (c : Patched)
      (it : list (string * string)) (p : Promise) :
  mirrored (fst (fst (patched_next parse_url c it p)),
            snd (patched_next parse_url c it p)) p.
Proof.
  destruct it as [|[key value] rest]; [reflexivity|].
  rewrite patched_next_eq. destruct value as [|a t]; [reflexivity|].
  destruct (sensitive key); [|reflexivity].
  now destruct (verifyHostAllowed parse_url key (String a t) (allowedHosts_of c)).
Qed.

Lemma for_of_entries_mirrored (parse_url : string -> option URL) (c : Patched)
      (it : list (string * string)) (p : Promise) :
  mirrored (for_of_entries parse_url c it p) p.
Proof.
  induction it as [|[key value] rest IH]; [reflexivity|].
  cbn [for_of_entries]. rewrite validateHeader_eq.
  assert (K : mirrored
                (match for_of_entries parse_url c rest p with
                 | (Return l, p') => (Return ((key, value) :: l), p')
                 | (Throw e, p') => (Throw e, p')
                 end) p).
  { destruct (for_of_entries parse_url c rest p) as [[l|e] p']; exact IH. }
  destruct value as [|a t]; [exact K|].
  destruct (sensitive key); [|exact K].
  destruct (verifyHostAllowed parse_url key (String a t) (allowedHosts_of c));
    [exact K | reflexivity].
Qed.

Lemma do_read_mirrored (parse_url : string -> option URL) (c : Patched)
      (r : read) (p : Promise) :
  snd (do_read parse_url c r p)
  = match fst (do_read parse_url c r p) with
    | None => p
    | Some e => resolve p e
    end.
Proof.
  destruct r as [name| |it]; cbn [do_read].
  - pose proof (patched_get_mirrored parse_url c name p) as M.
    now destruct (patched_get parse_url c name p) as [[v|e] p'].
  - pose proof (patched_values_eq parse_url c p) as E.
    pose proof (checked_mirrored
                  (values_check parse_url c "host" ;;
                   values_check parse_url c "x-forwarded-host")
                  (Headers.values (headers (clonedReq c))) p) as M.
    rewrite <- E in M.
    now destruct (patched_values parse_url c p) as [[v|e] p'].
  - pose proof (patched_next_mirrored parse_url c it p) as M.
    now destruct (patched_next parse_url c it p) as [[[v|e] rest] p'].
Qed.

Lemma do_reads_first_error (parse_url : string -> option URL) (c : Patched)
      (rs : list read) (p : Promise) :
  snd (do_reads parse_url c rs p)
  = match p with
    | Some e => Some e
    | None => first_error (fst (do_reads parse_url c rs p))
    end.
Proof.
  revert p. induction rs as [|r rs IH]; intros p; [now destruct p|].
  cbn [do_reads]. pose proof (do_read_mirrored parse_url c r p) as M.
  destruct (do_read parse_url c r p) as [e p']. cbn [fst snd] in M. subst p'.
  specialize (IH (match e with None => p | Some e0 => resolve p e0 end)).
  destruct (do_reads parse_url c rs _) as [es p'']. cbn [fst snd] in *.
  rewrite IH. destruct p as [e0|]; destruct e as [e1|]; reflexivity.
Qed.

Lemma patched_next_check (parse_url : string -> option URL) (c : Patched)
      (entry : string * string) (rest : list (string * string)) (p : Promise) :
  patched_next parse_url c (entry :: rest) p
  = let (r, p') := checked (entry_check parse_url c entry) (Some entry) p in
    (r, rest, p').
Proof.
  destruct entry as [key value]. rewrite patched_next_eq.
  unfold entry_check. cbn [fst snd].
  destruct value as [|a t]; [now rewrite andb_false_r|].
  change (nonempty (String a t)) with true. rewrite andb_true_r.
  now destruct (sensitive key).
Qed.

Lemma for_of_entries_check (parse_url : string -> option URL) (c : Patched)
      (entry : string * string) (rest : list (string * string)) (p : Promise) :
  for_of_entries parse_url c (entry :: rest) p
  = match entry_check parse_url c entry with
    | Return _ =>
        match for_of_entries parse_url c rest p with
        | (Return l, p') => (Return (entry :: l), p')
        | (Throw e, p') => (Throw e, p')
        end
    | Throw e => (Throw e, resolve p e)
    end.
Proof.
  rewrite for_of_entries_next, patched_next_check.
  now destruct (entry_check parse_url c entry) as [[]|e].
Qed.

Lemma for_of_entries_all_pass (parse_url : string -> option URL) (c : Patched)
      (it : list (string * string)) (p : Promise) :
  Forall (fun entry => entry_check parse_url c entry = Return tt) it ->
  for_of_entries parse_url c it p = (Return it, p).
Proof.
  induction 1 as [|entry rest He _ IH]; [reflexivity|].
  now rewrite for_of_entries_check, He, IH.
Qed.

Lemma for_of_entries_first_failure (parse_url : string -> option URL)
      (c : Patched) (pre : list (string * string)) (entry : string * string)
      (rest : list (string * string)) (e : Error) (p : Promise) :
  Forall (fun en => entry_check parse_url c en = Return tt) pre ->
  entry_check parse_url c entry = Throw e ->
  for_of_entries parse_url c (pre ++ entry :: rest) p = (Throw e, resolve p e).
Proof.
  intros Hpre He. induction Hpre as [|en pre Hen _ IH].
  - cbn [app]. now rewrite for_of_entries_check, He.
  - cbn [app]. now rewrite for_of_entries_check, Hen, IH.
Qed.

(** C5: a read from the clone that detects a violation raises the
    error and resolves the promise with that same error, which a
    pending promise then holds, and a read that returns, its value
    having passed the check or its name not being looked at, leaves the
    promise as it was.  This holds of a lookup (under a name that is a
    token), of the call of [values()], which checks [host] and then
    [x-forwarded-host], of a step over the entries, and of a loop over
    them, which raises at the first entry that fails.  A promise once
    resolved keeps its error, so that after any run of reads the promise
    holds the first error raised, and is pending when none was. *)
Theorem violation_raised_and_mirrored :
  forall parse_url c p,
    (forall name v e,
        sensitive name = true ->
        Headers.get (headers (clonedReq c)) name = Some v -> v <> "" ->
        verifyHostAllowed parse_url name v (allowedHosts_of c) = Throw e ->
        patched_get parse_url c name p = (Throw e, resolve p e))
    /\ (forall name v,
           is_token name = true ->
           Headers.get (headers (clonedReq c)) name = Some v ->
           sensitive name = false \/ v = ""
           \/ verifyHostAllowed parse_url name v (allowedHosts_of c) = Return tt ->
           patched_get parse_url c name p = (Return (Some v), p))
    /\ (forall name,
           is_token name = true ->
           Headers.get (headers (clonedReq c)) name = None ->
           patched_get parse_url c name p = (Return None, p))
    /\ patched_values parse_url c p
       = checked (values_check parse_url c "host" ;;
                  values_check parse_url c "x-forwarded-host")
                 (Headers.values (headers (clonedReq c))) p
    /\ (forall entry rest,
           patched_next parse_url c (entry :: rest) p
           = let (r, p') := checked (entry_check parse_url c entry)
                                    (Some entry) p in
             (r, rest, p'))
    /\ patched_next parse_url c [] p = (Return None, [], p)
    /\ (forall it,
           Forall (fun entry => entry_check parse_url c entry = Return tt) it ->
           for_of_entries parse_url c it p = (Return it, p))
    /\ (forall pre entry rest e,
           Forall (fun en => entry_check parse_url c en = Return tt) pre ->
           entry_check parse_url c entry = Throw e ->
           for_of_entries parse_url c (pre ++ entry :: rest) p
           = (Throw e, resolve p e))
    /\ (forall e, resolve None e = Some e)
    /\ (forall e e', resolve (Some e) e' = Some e)
    /\ (forall reads,
           Forall token_read reads ->
           snd (do_reads parse_url c reads None)
           = first_error (fst (do_reads parse_url c reads None))).
Proof.
  intros parse_url c p.
  split; [|split; [|split; [|split; [|split; [|split; [|split; [|split;
    [|split; [|split]]]]]]]]]; try reflexivity.
  - intros name v e Hs Hget Hv He. rewrite patched_get_eq, Hget, Hs, He.
    destruct v; [congruence | reflexivity].
  - intros name v _ Hget H. rewrite patched_get_eq, Hget.
    destruct v as [|a t]; [reflexivity|].
    destruct (sensitive name); [|reflexivity].
    destruct H as [H|[H|H]]; [discriminate | discriminate | now rewrite H].
  - intros name _ Hget. now rewrite patched_get_eq, Hget.
  - apply patched_values_eq.
  - intros entry rest. apply patched_next_check.
  - intros it. apply for_of_entries_all_pass.
  - intros pre entry rest e. apply for_of_entries_first_failure.
  - intros reads _. apply (do_reads_first_error parse_url c reads None).
Qed.

Lemma violation_raised_and_mirrored_witness :
  patched_get Whatwg.parse
    (fst (cloneRequestAndPatchHeaders request_two_violations allowed_example))
    "x-forwarded-host" None
  = (Throw (HeaderUnparsableError "x-forwarded-host"),
     Some (HeaderUnparsableError "x-forwarded-host"))
  /\ patched_get Whatwg.parse
       (fst (cloneRequestAndPatchHeaders request_two_violations allowed_example))
       "accept" None
     = (Return (Some "text/html"), None)
  /\ for_of_entries Whatwg.parse
       (fst (cloneRequestAndPatchHeaders request_two_violations allowed_example))
       ([("accept", "text/html")]
          ++ ("host", "attacker.com") :: [("x-forwarded-host", "bad host")])
       None
     = (Throw (HeaderNotAllowedError "host" "attacker.com"),
        Some (HeaderNotAllowedError "host" "attacker.com"))
  /\ snd (do_reads Whatwg.parse
            (fst (cloneRequestAndPatchHeaders request_two_violations
                    allowed_example))
            [ReadGet "accept"; ReadValues] None)
     = first_error
         (fst (do_reads Whatwg.parse
                 (fst (cloneRequestAndPatchHeaders request_two_violations
                         allowed_example))
                 [ReadGet "accept"; ReadValues] None)).
Proof.
  pose proof (violation_raised_and_mirrored Whatwg.parse
                (fst (cloneRequestAndPatchHeaders request_two_violations
                        allowed_example))
                None) as [Raise [Quiet [_ [_ [_ [_ [_ [Loop [_ [_ Run]]]]]]]]]].
  split; [|split; [|split]].
  - apply (Raise "x-forwarded-host" "bad host"); try reflexivity. discriminate.
  - apply (Quiet "accept" "text/html"); try reflexivity. now left.
  - apply (Loop [("accept", "text/html")] ("host", "attacker.com")
             [("x-forwarded-host", "bad host")]
             (HeaderNotAllowedError "host" "attacker.com")).
    + apply Forall_cons; [reflexivity | apply Forall_nil].
    + reflexivity.
  - apply Run. apply Forall_cons; [reflexivity|].
    apply Forall_cons; [exact I | apply Forall_nil].
Defined.

(** ** Which names are validated *)

Lemma sensitive_iff (name : string) :
  sensitive name = true
  <-> Js.toLowerCase name = "host" \/ Js.toLowerCase name = "x-forwarded-host".
Proof.
  unfold sensitive. rewrite Set_has_iff. unfold HOST_HEADERS_TO_VALIDATE.
  simpl. intuition congruence.
Qed.

Lemma lower_char_token (c : ascii) :
  Js.between 97 122 (Js.lower_char c) || Ascii.eqb (Js.lower_char c) "-" = true ->
  tchar c = true.
Proof.
  destruct c as [[|] [|] [|] [|] [|] [|] [|] [|]]; vm_compute; auto.
Qed.

Lemma lowercase_token (s : string) :
  Js.all_chars (fun c => Js.between 97 122 c || Ascii.eqb c "-")
               (Js.toLowerCase s) = true ->
  Js.all_chars tchar s = true.
Proof.
  induction s as [|c s IH]; [reflexivity|].
  cbn [Js.toLowerCase Js.all_chars]. intros H.
  apply andb_prop in H. destruct H as [Hc H].
  now rewrite (lower_char_token c Hc), IH.
Qed.

(** The names that are validated are tokens. *)
Lemma sensitive_is_token (name : string) :
  sensitive name = true -> is_token name = true.
Proof.
  intros H. apply sensitive_iff in H. unfold is_token.
  assert (A : Js.all_chars tchar name = true)
    by (apply lowercase_token; destruct H as [-> | ->]; reflexivity).
  rewrite A, andb_true_r.
  destruct name; [destruct H; discriminate | reflexivity].
Qed.

(** C9: in the clone the name of a header read, lower-cased,
    decides whether the value is validated.  A name that is [host] or
    [x-forwarded-host] up to the case of its letters is lower-cased to
    it, and a read of it with a value that is not empty has the outcome
    of [verifyHostAllowed]; a read of a header whose lower-cased name is
    neither, by a lookup under that name, a token as the name of a
    header is, or by a step over the entries, returns what is stored
    and leaves the promise as it was, whatever the value. *)
Theorem validated_by_lowercased_name :
  forall parse_url c p,
    (forall name,
        Headers.same_name name "host" = true -> Js.toLowerCase name = "host")
    /\ (forall name,
           Headers.same_name name "x-forwarded-host" = true ->
           Js.toLowerCase name = "x-forwarded-host")
    /\ (forall name v,
           Js.toLowerCase name = "host" \/ Js.toLowerCase name = "x-forwarded-host" ->
           Headers.get (headers (clonedReq c)) name = Some v -> v <> "" ->
           patched_get parse_url c name p
           = checked (verifyHostAllowed parse_url name v (allowedHosts_of c))
                     (Some v) p)
    /\ (forall name v rest,
           Js.toLowerCase name = "host" \/ Js.toLowerCase name = "x-forwarded-host" ->
           v <> "" ->
           patched_next parse_url c ((name, v) :: rest) p
           = let (r, p') := checked (verifyHostAllowed parse_url name v
                                       (allowedHosts_of c)) (Some (name, v)) p in
             (r, rest, p'))
    /\ (forall name,
           is_token name = true ->
           Js.toLowerCase name <> "host" ->
           Js.toLowerCase name <> "x-forwarded-host" ->
           patched_get parse_url c name p
           = (Return (Headers.get (headers (clonedReq c)) name), p))
    /\ (forall name v rest,
           Js.toLowerCase name <> "host" ->
           Js.toLowerCase name <> "x-forwarded-host" ->
           patched_next parse_url c ((name, v) :: rest) p
           = (Return (Some (name, v)), rest, p)).
Proof.
  intros parse_url c p.
  assert (Off : forall name,
             Js.toLowerCase name <> "host" ->
             Js.toLowerCase name <> "x-forwarded-host" -> sensitive name = false).
  { intros name H1 H2. destruct (sensitive name) eqn:E; [|reflexivity].
    apply sensitive_iff in E. tauto. }
  split; [|split; [|split; [|split; [|split]]]].
  - intros name H. now apply (lowercase_ascii_iff name "host"), String.eqb_eq.
  - intros name H.
    now apply (lowercase_ascii_iff name "x-forwarded-host"), String.eqb_eq.
  - intros name v Hs Hget Hv. apply sensitive_iff in Hs.
    rewrite patched_get_eq, Hget, Hs. destruct v; [congruence | reflexivity].
  - intros name v rest Hs Hv. apply sensitive_iff in Hs.
    rewrite patched_next_eq, Hs. destruct v; [congruence | reflexivity].
  - intros name _ H1 H2. rewrite patched_get_eq, (Off name H1 H2).
    now destruct (Headers.get (headers (clonedReq c)) name) as [[|a t]|].
  - intros name v rest H1 H2. rewrite patched_next_eq, (Off name H1 H2).
    now destruct v.
Qed.

Lemma validated_by_lowercased_name_witness :
  Js.toLowerCase "HoSt" = "host"
  /\ patched_get Whatwg.parse
       (fst (cloneRequestAndPatchHeaders request_mixed_case allowed_example))
       "HoSt" None
     = (Throw (HeaderNotAllowedError "HoSt" "attacker.com"),
        Some (HeaderNotAllowedError "HoSt" "attacker.com"))
  /\ patched_get Whatwg.parse
       (fst (cloneRequestAndPatchHeaders request_mixed_case allowed_example))
       "x-real-host" None
     = (Return (Some "bad host"), None).
Proof.
  pose proof (validated_by_lowercased_name Whatwg.parse
                (fst (cloneRequestAndPatchHeaders request_mixed_case allowed_example))
                None) as [Low [_ [On [_ [Off _]]]]].
  assert (L : Js.toLowerCase "HoSt" = "host") by (apply Low; reflexivity).
  split; [exact L|]. split.
  - apply (On "HoSt" "attacker.com"); [left; exact L | reflexivity | discriminate].
  - apply (Off "x-real-host"); [reflexivity | discriminate | discriminate].
Defined.

(** ** Headers that are missing or empty *)

Lemma rule_fails_truthy (tok : option string) (bad : string -> bool) :
  rule_fails tok bad = true -> truthy tok = true.
Proof. destruct tok as [[|c t]|]; simpl; congruence. Qed.

Lemma rule_fails_falsy (tok : option string) (bad : string -> bool) :
  truthy tok = false -> rule_fails tok bad = false.
Proof. destruct tok as [[|c t]|]; simpl; congruence. Qed.

Lemma validateHeaders_needs_token (request : Request) (e : Error) :
  validateHeaders request = Throw e ->
  exists name,
    error_header e = Some name
    /\ truthy (header_token (headers request) name) = true.
Proof.
  rewrite validateHeaders_cascade.
  destruct (host_chars_fail request "host") eqn:H1.
  { intros E. injection E as <-. exists "host". split; [reflexivity|].
    exact (rule_fails_truthy _ _ H1). }
  destruct (host_chars_fail request "x-forwarded-host") eqn:H2.
  { intros E. injection E as <-. exists "x-forwarded-host". split; [reflexivity|].
    exact (rule_fails_truthy _ _ H2). }
  destruct (port_fails request) eqn:H3.
  { intros E. injection E as <-. exists "x-forwarded-port". split; [reflexivity|].
    exact (rule_fails_truthy _ _ H3). }
  destruct (proto_fails request) eqn:H4.
  { intros E. injection E as <-. exists "x-forwarded-proto". split; [reflexivity|].
    exact (rule_fails_truthy _ _ H4). }
  destruct (prefix_fails request) eqn:H5.
  { intros E. injection E as <-. exists "x-forwarded-prefix". split; [reflexivity|].
    exact (rule_fails_truthy _ _ H5). }
  discriminate.
Qed.

Lemma for_of_entries_quiet (parse_url : string -> option URL) (c : Patched)
      (it : list (string * string)) (p : Promise) :
  Forall (fun kv => sensitive (fst kv) = false) it ->
  for_of_entries parse_url c it p = (Return it, p).
Proof.
  induction 1 as [|[key value] rest Hk _ IH]; [reflexivity|].
  cbn [for_of_entries]. rewrite validateHeader_eq. cbn [fst] in Hk.
  rewrite Hk. destruct value; cbv iota beta; now rewrite IH.
Qed.

(** C10 as the specification words it fails: this request has no
    [host] and no [x-forwarded-host] header, and [validateHeaders], and
    with it [validateRequest], raises the error of a header, the one of
    the port. *)
Lemma no_host_headers_counterexample :
  Headers.get (headers request_port_only) "host" = None
  /\ Headers.get (headers request_port_only) "x-forwarded-host" = None
  /\ validateHeaders request_port_only = Throw PortError
  /\ validateRequest Whatwg.parse request_port_only allowed_example
     = Throw PortError.
Proof. repeat split. Qed.

(** C10, amended: a header that is missing or whose first token is
    empty causes no violation.  [validateHeaders] raises only about a
    header whose first token is there and not empty, and returns when
    none of the five headers it reads has one; [verifyHostAllowed]
    returns when the first token is empty; the lookup of the clone,
    under a name that is a token, returns a missing or empty value as
    it is; and with no [host] and no [x-forwarded-host] header, no
    read from the clone, a lookup under a token, the call of
    [values()] or a loop over the entries, raises or resolves the
    promise, and [validateHeaders] raises no error about a host, the
    other headers being checked all the same. *)
Theorem missing_or_empty_is_no_violation :
  forall parse_url request allowedHosts p,
    let c := fst (cloneRequestAndPatchHeaders request allowedHosts) in
    (forall e,
        validateHeaders request = Throw e ->
        exists name,
          error_header e = Some name
          /\ truthy (header_token (headers request) name) = true)
    /\ (truthy (header_token (headers request) "host") = false ->
        truthy (header_token (headers request) "x-forwarded-host") = false ->
        truthy (header_token (headers request) "x-forwarded-port") = false ->
        truthy (header_token (headers request) "x-forwarded-proto") = false ->
        truthy (header_token (headers request) "x-forwarded-prefix") = false ->
        validateHeaders request = Return tt)
    /\ (forall name value,
           getFirstHeaderValue (Some (HString value)) = Some "" ->
           verifyHostAllowed parse_url name value allowedHosts = Return tt)
    /\ (forall name,
           is_token name = true ->
           truthy (Headers.get (headers request) name) = false ->
           patched_get parse_url c name p
           = (Return (Headers.get (headers request) name), p))
    /\ (Headers.get (headers request) "host" = None ->
        Headers.get (headers request) "x-forwarded-host" = None ->
        (forall name,
            is_token name = true ->
            patched_get parse_url c name p
            = (Return (Headers.get (headers request) name), p))
        /\ patched_values parse_url c p
           = (Return (Headers.values (headers request)), p)
        /\ for_of_entries parse_url c (patched_entries c) p
           = (Return (Headers.entries (headers request)), p)
        /\ (forall name, validateHeaders request <> Throw (HeaderCharsError name))).
Proof.
  intros parse_url request allowedHosts p c. subst c.
  cbn [fst cloneRequestAndPatchHeaders].
  split; [intros e; apply validateHeaders_needs_token|].
  split; [|split; [|split; [|]]].
  - intros H1 H2 H3 H4 H5. rewrite validateHeaders_cascade.
    unfold host_chars_fail, port_fails, proto_fails, prefix_fails.
    now rewrite !rule_fails_falsy by assumption.
  - intros name value H. now rewrite verifyHostAllowed_eq, H.
  - intros name _ H. rewrite patched_get_eq. cbn [clonedReq].
    now destruct (Headers.get (headers request) name) as [[|a t]|].
  - intros H1 H2. split; [|split; [|split]].
    + intros name _. rewrite patched_get_eq. cbn [clonedReq].
      destruct (sensitive name) eqn:Hs.
      * rewrite sensitive_same_name in Hs.
        assert (G : Headers.get (headers request) name = None).
        { destruct (Headers.same_name name "host") eqn:A.
          - now rewrite (get_same_name (headers request) _ _ A).
          - cbn [orb] in Hs. now rewrite (get_same_name (headers request) _ _ Hs). }
        now rewrite G.
      * now destruct (Headers.get (headers request) name) as [[|a t]|].
    + rewrite patched_values_eq. unfold values_check. cbn [clonedReq].
      now rewrite H1, H2.
    + unfold patched_entries. cbn [clonedReq].
      apply for_of_entries_quiet. now apply no_sensitive_entries.
    + intros name E. rewrite validateHeaders_cascade in E.
      unfold host_chars_fail, header_token in E. rewrite H1, H2 in E.
      cbn [option_map getFirstHeaderValue rule_fails] in E.
      repeat match type of E with
             | (if ?b then _ else _) = _ => destruct b
             end; discriminate.
Qed.

Lemma missing_or_empty_is_no_violation_witness :
  validateHeaders request_plain = Return tt
  /\ for_of_entries Whatwg.parse
       (fst (cloneRequestAndPatchHeaders request_plain allowed_example))
       (patched_entries
          (fst (cloneRequestAndPatchHeaders request_plain allowed_example)))
       None
     = (Return [("accept", "text/html"); ("x-forwarded-prefix", "")], None).
Proof.
  pose proof (missing_or_empty_is_no_violation Whatwg.parse request_plain
                allowed_example None) as T.
  cbv zeta in T. destruct T as [_ [Skip [_ [_ Quiet]]]].
  split.
  - apply Skip; reflexivity.
  - destruct (Quiet eq_refl eq_refl) as [_ [_ [Loop _]]]. exact Loop.
Defined.

(** * Further properties of the module *)

(** ** The allow-list as a set *)

(** Adding members to the allow-list never turns an allowed host
    away. *)
Theorem isHostAllowed_monotone :
  forall h S S',
    incl S S' ->
    isHostAllowed h S = true -> isHostAllowed h S' = true.
Proof.
  intros h S S' Hincl H. apply isHostAllowed_iff in H. apply isHostAllowed_iff.
  destruct H as [H|[entry [Hin Hm]]].
  - left. now apply Hincl.
  - right. exists entry. split; [now apply Hincl | assumption].
Qed.

Lemma isHostAllowed_monotone_witness :
  isHostAllowed "api.example.com" ["localhost"; "*.example.com"; "localhost"] = true.
Proof.
  apply (isHostAllowed_monotone "api.example.com" ["*.example.com"]).
  - intros x [<-|[]]. simpl. auto.
  - reflexivity.
Defined.

(** Two allow-lists with the same members, in whatever order and
    however repeated, allow the same hosts. *)
Theorem isHostAllowed_same_members :
  forall h S S',
    (forall x, In x S <-> In x S') ->
    isHostAllowed h S = isHostAllowed h S'.
Proof.
  intros h S S' E.
  assert (M : forall A B, (forall x, In x A -> In x B) ->
                          isHostAllowed h A = true -> isHostAllowed h B = true).
  { intros A B I H. apply isHostAllowed_iff in H. apply isHostAllowed_iff.
    destruct H as [H|[entry [Hin Hm]]]; [left; auto | right; exists entry; auto]. }
  destruct (isHostAllowed h S) eqn:A; destruct (isHostAllowed h S') eqn:B;
    try reflexivity.
  - rewrite <- B. symmetry. apply (M S S'); [intros x; apply E | exact A].
  - rewrite <- A. apply (M S' S); [intros x; apply E | exact B].
Qed.

Lemma isHostAllowed_same_members_witness :
  isHostAllowed "localhost" ["localhost"; "*.example.com"]
  = isHostAllowed "localhost" ["*.example.com"; "localhost"; "localhost"].
Proof.
  apply isHostAllowed_same_members. intros x. simpl. tauto.
Defined.

(** Without an entry that starts with a star and a dot, only the
    members themselves are allowed. *)
Theorem isHostAllowed_exact_list :
  forall h S,
    (forall entry, In entry S -> Js.startsWith entry "*." = false) ->
    isHostAllowed h S = Set_has S h.
Proof.
  intros h S Hno. unfold isHostAllowed.
  destruct (Set_has S h); [reflexivity|].
  destruct (wildcard_loop h S) eqn:W; [|reflexivity].
  apply wildcard_loop_iff in W. destruct W as [entry [Hin Hm]].
  apply wildcard_step in Hm. destruct Hm as [Hs _].
  rewrite (Hno entry Hin) in Hs. discriminate.
Qed.

Lemma isHostAllowed_exact_list_witness :
  isHostAllowed "www.example.com" ["example.com"; "*example.com"]
  = Set_has ["example.com"; "*example.com"] "www.example.com".
Proof.
  apply isHostAllowed_exact_list.
  intros entry [<-|[<-|[]]]; reflexivity.
Defined.

(** With an empty allow-list no host is allowed: [validateRequest]
    lets no request through, and [verifyHostAllowed] returns only for
    a value whose first token is empty. *)
Theorem empty_allow_list_rejects :
  forall parse_url,
    (forall h, isHostAllowed h [] = false)
    /\ (forall request, validateRequest parse_url request [] <> Return tt)
    /\ (forall name value,
           verifyHostAllowed parse_url name value [] = Return tt
           <-> getFirstHeaderValue (Some (HString value)) = Some "").
Proof.
  intros parse_url. split; [reflexivity|]. split.
  - intros request. rewrite validateRequest_cascade. unfold url_step.
    repeat match goal with
           | |- context [if ?b then _ else _] => destruct b
           end; try discriminate.
    destruct (parse_url (url request)); discriminate.
  - intros name value. rewrite verifyHostAllowed_eq.
    destruct (split_all_head value) as [tok [rest [E _]]].
    assert (G : getFirstHeaderValue (Some (HString value)) = Some (Js.trim tok)).
    { unfold getFirstHeaderValue, Js.split. cbn [toString]. now rewrite E. }
    rewrite G. destruct (Js.trim tok) as [|a t]; [tauto|].
    unfold host_check. destruct (parse_url ("http://" ++ String a t)) as [u|].
    + cbn [isHostAllowed Set_has existsb wildcard_loop].
      split; discriminate.
    + split; discriminate.
Qed.

(** ** What [getFirstHeaderValue] returns *)

Lemma all_chars_append (f : ascii -> bool) (a b : string) :
  Js.all_chars f (a ++ b) = Js.all_chars f a && Js.all_chars f b.
Proof.
  induction a as [|c a IH]; simpl; [reflexivity|].
  now rewrite IH, andb_assoc.
Qed.

Lemma getFirstHeaderValue_of_token (v : header_value) (tok : string) :
  first_token_of (toString v) tok ->
  getFirstHeaderValue (Some v) = Some (Js.trim tok).
Proof.
  intros H. destruct (first_token_split _ _ H) as [rest E].
  unfold getFirstHeaderValue, Js.split. now rewrite E.
Qed.

Lemma first_token_self (t : string) :
  Js.all_chars (fun c => negb (Ascii.eqb c ",")) t = true -> first_token_of t t.
Proof. intros H. split; [exact H | now left]. Qed.

Lemma first_token_before_comma (t rest : string) :
  Js.all_chars (fun c => negb (Ascii.eqb c ",")) t = true ->
  first_token_of (t ++ "," ++ rest) t.
Proof. intros H. split; [exact H | right; now exists rest]. Qed.

(** The value returned holds no comma and neither starts nor ends
    with white space, and [getFirstHeaderValue] gives it back when
    applied to it. *)
Theorem getFirstHeaderValue_idempotent :
  forall v t,
    getFirstHeaderValue (Some v) = Some t ->
    Js.all_chars (fun c => negb (Ascii.eqb c ",")) t = true
    /\ not_space (Js.first_char t)
    /\ not_space (Js.last_char t)
    /\ getFirstHeaderValue (Some (HString t)) = Some t.
Proof.
  intros v t H.
  destruct (split_all_head (toString v)) as [tok [rest [E [Hn Hs]]]].
  assert (T : t = Js.trim tok).
  { unfold getFirstHeaderValue, Js.split in H. rewrite E in H.
    simpl in H. congruence. }
  destruct (trim_spec tok) as [l [r [Etok [Hl [Hr [Hf Hlast]]]]]].
  rewrite <- T in *.
  assert (C : Js.all_chars (fun c => negb (Ascii.eqb c ",")) t = true).
  { rewrite Etok, !all_chars_append in Hn.
    apply andb_prop in Hn. destruct Hn as [_ Hn].
    apply andb_prop in Hn. tauto. }
  split; [exact C|]. split; [exact Hf|]. split; [exact Hlast|].
  rewrite (getFirstHeaderValue_of_token (HString t) t (first_token_self t C)).
  f_equal. apply trimmed_unique. exists "", "".
  rewrite append_empty_r. repeat split; assumption.
Qed.

Lemma getFirstHeaderValue_idempotent_witness :
  getFirstHeaderValue (Some (HString "example.com")) = Some "example.com".
Proof.
  apply (getFirstHeaderValue_idempotent (HString "  example.com , b") "example.com").
  reflexivity.
Defined.

(** Only the first value of a comma-separated list is looked at:
    what follows the first comma changes neither the value returned nor
    the outcome of [verifyHostAllowed]. *)
Theorem later_values_ignored :
  forall parse_url name first rest allowedHosts,
    Js.all_chars (fun c => negb (Ascii.eqb c ",")) first = true ->
    getFirstHeaderValue (Some (HString (first ++ "," ++ rest)))
    = Some (Js.trim first)
    /\ getFirstHeaderValue (Some (HString first)) = Some (Js.trim first)
    /\ verifyHostAllowed parse_url name (first ++ "," ++ rest) allowedHosts
       = verifyHostAllowed parse_url name first allowedHosts.
Proof.
  intros parse_url name first rest allowedHosts H.
  assert (A : getFirstHeaderValue (Some (HString (first ++ "," ++ rest)))
              = Some (Js.trim first))
    by (apply getFirstHeaderValue_of_token, first_token_before_comma, H).
  assert (B : getFirstHeaderValue (Some (HString first)) = Some (Js.trim first))
    by (apply getFirstHeaderValue_of_token, first_token_self, H).
  split; [exact A|]. split; [exact B|].
  now rewrite !verifyHostAllowed_eq, A, B.
Qed.

Lemma later_values_ignored_witness :
  verifyHostAllowed Whatwg.parse "host" ("api.example.com" ++ "," ++ " bad host")
                    allowed_example
  = verifyHostAllowed Whatwg.parse "host" "api.example.com" allowed_example.
Proof.
  apply (later_values_ignored Whatwg.parse "host" "api.example.com" " bad host"
           allowed_example).
  reflexivity.
Defined.

(** A value whose first token is empty, that is a value that starts
    with a comma, white space aside, is not checked at all, whatever
    follows the comma. *)
Theorem empty_first_token_unchecked :
  forall parse_url name ws rest allowedHosts,
    Js.all_chars Js.is_space ws = true ->
    getFirstHeaderValue (Some (HString (ws ++ "," ++ rest))) = Some ""
    /\ verifyHostAllowed parse_url name (ws ++ "," ++ rest) allowedHosts
       = Return tt.
Proof.
  intros parse_url name ws rest allowedHosts H.
  assert (C : Js.all_chars (fun c => negb (Ascii.eqb c ",")) ws = true).
  { clear rest. induction ws as [|c ws IH]; [reflexivity|].
    simpl in *. apply andb_prop in H. destruct H as [Hc H].
    rewrite (IH H), andb_true_r.
    destruct (Ascii.eqb_spec c ","); [subst c; discriminate | reflexivity]. }
  assert (A : getFirstHeaderValue (Some (HString (ws ++ "," ++ rest))) = Some "").
  { rewrite (getFirstHeaderValue_of_token (HString (ws ++ "," ++ rest)) ws
               (first_token_before_comma ws rest C)).
    f_equal. unfold Js.trim.
    now rewrite (trimStart_all_spaces ws H). }
  split; [exact A|]. now rewrite verifyHostAllowed_eq, A.
Qed.

Lemma empty_first_token_unchecked_witness :
  verifyHostAllowed Whatwg.parse "host" (" " ++ "," ++ "attacker.com") allowed_example
  = Return tt.
Proof.
  apply (empty_first_token_unchecked Whatwg.parse "host" " " "attacker.com"
           allowed_example).
  reflexivity.
Defined.

(** For an array, the value returned is the first element, trimmed,
    when it holds no comma; an empty array gives the empty string, not
    [undefined]. *)
Theorem getFirstHeaderValue_array :
  forall first others,
    Js.all_chars (fun c => negb (Ascii.eqb c ",")) first = true ->
    getFirstHeaderValue (Some (HArray (first :: others))) = Some (Js.trim first)
    /\ getFirstHeaderValue (Some (HArray [])) = Some "".
Proof.
  intros first others H. split; [|reflexivity].
  apply getFirstHeaderValue_of_token. cbn [toString]. unfold Js.join_comma.
  destruct others as [|o os].
  - apply first_token_self, H.
  - cbn [String.concat]. apply first_token_before_comma, H.
Qed.

Lemma getFirstHeaderValue_array_witness :
  getFirstHeaderValue (Some (HArray [" value1 "; "value2"; "value3"]))
  = Some "value1".
Proof.
  apply (getFirstHeaderValue_array " value1 " ["value2"; "value3"]).
  reflexivity.
Defined.

(** ** What [validateRequest] lets through and what it raises *)

(** [validateRequest] returns exactly for the requests that pass the
    five checks on the headers and whose URL parses to a hostname that
    the allow-list holds or matches. *)
Theorem validateRequest_accepts_iff :
  forall parse_url request allowedHosts,
    validateRequest parse_url request allowedHosts = Return tt
    <-> (host_chars_fail request "host" = false
         /\ host_chars_fail request "x-forwarded-host" = false
         /\ port_fails request = false
         /\ proto_fails request = false
         /\ prefix_fails request = false
         /\ exists u, parse_url (url request) = Some u
                      /\ allowed_by (hostname u) allowedHosts).
Proof.
  intros parse_url request allowedHosts. rewrite validateRequest_cascade.
  destruct (host_chars_fail request "host");
    [split; [discriminate | intros [? _]; discriminate]|].
  destruct (host_chars_fail request "x-forwarded-host");
    [split; [discriminate | intros [_ [? _]]; discriminate]|].
  destruct (port_fails request);
    [split; [discriminate | intros [_ [_ [? _]]]; discriminate]|].
  destruct (proto_fails request);
    [split; [discriminate | intros [_ [_ [_ [? _]]]]; discriminate]|].
  destruct (prefix_fails request);
    [split; [discriminate | intros [_ [_ [_ [_ [? _]]]]]; discriminate]|].
  unfold url_step. destruct (parse_url (url request)) as [u|].
  - destruct (isHostAllowed (hostname u) allowedHosts) eqn:A.
    + split; [|reflexivity]. intros _. repeat split.
      exists u. split; [reflexivity|]. now apply isHostAllowed_iff.
    + split; [discriminate|]. intros [_ [_ [_ [_ [_ [u' [E H]]]]]]].
      injection E as <-. apply isHostAllowed_iff in H. congruence.
  - split; [discriminate|]. intros [_ [_ [_ [_ [_ [u' [E _]]]]]]]. discriminate.
Qed.

(** An error of [validateRequest] is never a false alarm: the rule it
    names is broken by the request, the URL it names does not parse,
    or the hostname it names is the one of the URL and is not allowed;
    and it is never one of the two errors of [verifyHostAllowed]. *)
Theorem validateRequest_error_justified :
  forall parse_url request allowedHosts e,
    validateRequest parse_url request allowedHosts = Throw e ->
    error_justified parse_url request allowedHosts e.
Proof.
  intros parse_url request allowedHosts e. rewrite validateRequest_cascade.
  destruct (host_chars_fail request "host") eqn:H1;
    [intros E; injection E as <-; simpl; auto|].
  destruct (host_chars_fail request "x-forwarded-host") eqn:H2;
    [intros E; injection E as <-; simpl; auto|].
  destruct (port_fails request) eqn:H3; [intros E; injection E as <-; exact H3|].
  destruct (proto_fails request) eqn:H4; [intros E; injection E as <-; exact H4|].
  destruct (prefix_fails request) eqn:H5; [intros E; injection E as <-; exact H5|].
  unfold url_step. destruct (parse_url (url request)) as [u|] eqn:P.
  - destruct (isHostAllowed (hostname u) allowedHosts) eqn:A; [discriminate|].
    intros E. injection E as <-. simpl. exists u. auto.
  - intros E. injection E as <-. simpl. auto.
Qed.

Lemma validateRequest_error_justified_witness :
  error_justified Whatwg.parse request_bad_port_and_prefix allowed_example PortError.
Proof.
  apply validateRequest_error_justified. reflexivity.
Defined.

(** [validateRequest] reads the URL and five headers and nothing
    else: two requests with the same URL and the same values under
    these five names have the same outcome. *)
Theorem validateRequest_reads_five_headers :
  forall parse_url r1 r2 allowedHosts,
    url r1 = url r2 ->
    (forall name, In name validated_names ->
                  Headers.get (headers r1) name = Headers.get (headers r2) name) ->
    validateRequest parse_url r1 allowedHosts
    = validateRequest parse_url r2 allowedHosts.
Proof.
  intros parse_url r1 r2 allowedHosts Hu Hh.
  rewrite !validateRequest_cascade.
  unfold host_chars_fail, port_fails, proto_fails, prefix_fails, url_step,
    header_token.
  rewrite Hu.
  rewrite (Hh "host"), (Hh "x-forwarded-host"), (Hh "x-forwarded-port"),
    (Hh "x-forwarded-proto"), (Hh "x-forwarded-prefix")
    by (unfold validated_names; simpl; tauto).
  reflexivity.
Qed.

Lemma validateRequest_reads_five_headers_witness :
  validateRequest Whatwg.parse request_attacker allowed_example
  = validateRequest Whatwg.parse
      {| url := "https://allowed.example.com/page";
         headers := [("Host", "attacker.com"); ("cookie", "a=b")] |}
      allowed_example.
Proof.
  apply validateRequest_reads_five_headers; [reflexivity|].
  intros name H. unfold validated_names in H. simpl in H.
  destruct H as [<-|[<-|[<-|[<-|[<-|[]]]]]]; reflexivity.
Defined.

(** ** Reads from the clone *)

Section CloneReads.

Variable parse_url : string -> option URL.

Lemma for_of_entries_returns (c : Patched) (it : list (string * string))
      (p : Promise) :
  match for_of_entries parse_url c it p with
  | (Return l, _) => l = it
  | (Throw _, _) => True
  end.
Proof.
  revert p. induction it as [|[key value] rest IH]; intros p; [reflexivity|].
  cbn [for_of_entries].
  destruct (validateHeader parse_url key (Some value) (allowedHosts_of c) p)
    as [[[]|e] p']; [|exact I].
  specialize (IH p').
  destruct (for_of_entries parse_url c rest p') as [[l|e] p'']; [|exact I].
  now subst l.
Qed.

Lemma verify_ok_any_name (n1 n2 v : string) (allowedHosts : list string) :
  verifyHostAllowed parse_url n1 v allowedHosts = Return tt ->
  verifyHostAllowed parse_url n2 v allowedHosts = Return tt.
Proof.
  rewrite !verifyHostAllowed_eq.
  destruct (getFirstHeaderValue (Some (HString v))) as [[|a t]|]; try reflexivity.
  unfold host_check. destruct (parse_url ("http://" ++ String a t)) as [u|];
    [|discriminate].
  now destruct (isHostAllowed (hostname u) allowedHosts).
Qed.

Lemma sensitive_get (h : Headers.t) (name : string) :
  sensitive name = true ->
  Headers.get h name = Headers.get h "host"
  \/ Headers.get h name = Headers.get h "x-forwarded-host".
Proof.
  rewrite sensitive_same_name. intros H.
  destruct (Headers.same_name name "host") eqn:A.
  - left. now apply get_same_name.
  - right. now apply get_same_name.
Qed.

Lemma names_lowercase (h : Headers.t) (k : string) :
  In k (Headers.names h) -> Headers.byte_lowercase k = k.
Proof.
  intros H. apply in_names in H. destruct H as [nv [_ <-]].
  apply byte_lowercase_idem.
Qed.

Lemma entries_inv (h : Headers.t) (k v : string) :
  In (k, v) (Headers.entries h) ->
  In k (Headers.names h)
  /\ (k <> "set-cookie" -> Headers.get h k = Some v).
Proof.
  unfold Headers.entries. rewrite in_flat_map. intros [n [Hn Hin]].
  destruct (String.eqb_spec n "set-cookie") as [E|N].
  - apply in_map_iff in Hin. destruct Hin as [x [Ex _]].
    injection Ex as <- _. split; [assumption | congruence].
  - destruct (Headers.get h n) as [w|] eqn:G; [|destruct Hin].
    destruct Hin as [Ex|[]]. injection Ex as <- <-. auto.
Qed.

Lemma sensitive_entry (h : Headers.t) (k v : string) :
  In (k, v) (Headers.entries h) -> sensitive k = true ->
  (k = "host" \/ k = "x-forwarded-host") /\ Headers.get h k = Some v.
Proof.
  intros Hin Hs. destruct (entries_inv h k v Hin) as [Hn Hg].
  apply names_lowercase in Hn. rewrite sensitive_same_name in Hs.
  unfold Headers.same_name in Hs. rewrite Hn in Hs.
  assert (K : k = "host" \/ k = "x-forwarded-host").
  { apply orb_prop in Hs. destruct Hs as [E|E]; apply String.eqb_eq in E; auto. }
  split; [exact K|]. apply Hg. destruct K as [->| ->]; discriminate.
Qed.

Lemma get_in_entries (h : Headers.t) (n v : string) :
  Headers.get h n = Some v ->
  Headers.byte_lowercase n = n -> n <> "set-cookie" ->
  In (n, v) (Headers.entries h).
Proof.
  intros G L N. unfold Headers.entries. apply in_flat_map. exists n. split.
  - apply in_names. unfold Headers.get, Headers.values_of in G.
    destruct (filter (fun nv => Headers.same_name (fst nv) n) h) as [|nv l] eqn:F;
      [discriminate|].
    assert (I : In nv (filter (fun nv => Headers.same_name (fst nv) n) h))
      by (rewrite F; now left).
    apply filter_In in I. destruct I as [I S]. exists nv. split; [exact I|].
    unfold Headers.same_name in S. apply String.eqb_eq in S. congruence.
  - destruct (String.eqb_spec n "set-cookie") as [E|_]; [contradiction|].
    rewrite G. now left.
Qed.

End CloneReads.

(** The patched methods change nothing of what is read: whenever one
    returns, it returns what the original method returns, a lookup its
    value, [values()] the values, a step over the entries the next
    entry, and a loop over them all of them. *)
Theorem patched_reads_transparent :
  forall parse_url c p,
    (forall name,
        match patched_get parse_url c name p with
        | (Return v, _) => v = Headers.get (headers (clonedReq c)) name
        | (Throw _, _) => True
        end)
    /\ match patched_values parse_url c p with
       | (Return l, _) => l = Headers.values (headers (clonedReq c))
       | (Throw _, _) => True
       end
    /\ (forall it,
           match patched_next parse_url c it p with
           | (Return None, rest, _) => it = [] /\ rest = []
           | (Return (Some entry), rest, _) => it = entry :: rest
           | (Throw _, rest, _) => exists entry, it = entry :: rest
           end)
    /\ (forall it,
           match for_of_entries parse_url c it p with
           | (Return l, _) => l = it
           | (Throw _, _) => True
           end).
Proof.
  intros parse_url c p. split; [|split; [|split]].
  - intros name. rewrite patched_get_eq.
    destruct (Headers.get (headers (clonedReq c)) name) as [[|a t]|]; try reflexivity.
    destruct (sensitive name); [|reflexivity].
    now destruct (verifyHostAllowed parse_url name (String a t) (allowedHosts_of c)).
  - rewrite patched_values_eq.
    now destruct (values_check parse_url c "host" ;;
                  values_check parse_url c "x-forwarded-host").
  - intros [|[key value] rest]; [now split|].
    rewrite patched_next_eq. destruct value as [|a t]; [reflexivity|].
    destruct (sensitive key); [|reflexivity].
    destruct (verifyHostAllowed parse_url key (String a t) (allowedHosts_of c));
      [reflexivity | eexists; reflexivity].
  - intros it. apply for_of_entries_returns.
Qed.

(** An error raised by a lookup in the clone under a name that is a
    token is never a false alarm:
    the name read is one of the two validated, the first token of
    its value is not empty, and either the token does not parse behind
    [http://] and the error is the one of an unparsable header, or the
    hostname parsed is not allowed and the error is the one of the
    allow-list, with the name as it was given and the token. *)
Theorem patched_get_error_justified :
  forall parse_url c name p e p',
    is_token name = true ->
    patched_get parse_url c name p = (Throw e, p') ->
    sensitive name = true
    /\ exists v tok,
        Headers.get (headers (clonedReq c)) name = Some v
        /\ getFirstHeaderValue (Some (HString v)) = Some tok
        /\ tok <> ""
        /\ ((parse_url ("http://" ++ tok) = None
             /\ e = HeaderUnparsableError name)
            \/ (exists u, parse_url ("http://" ++ tok) = Some u
                          /\ isHostAllowed (hostname u) (allowedHosts_of c) = false
                          /\ e = HeaderNotAllowedError name tok)).
Proof.
  intros parse_url c name p e p' _. rewrite patched_get_eq.
  destruct (Headers.get (headers (clonedReq c)) name) as [[|a t]|];
    try discriminate.
  destruct (sensitive name); [|discriminate].
  rewrite verifyHostAllowed_eq.
  destruct (getFirstHeaderValue (Some (HString (String a t)))) as [[|b tok]|] eqn:G;
    try discriminate.
  unfold host_check.
  destruct (parse_url ("http://" ++ String b tok)) as [u|] eqn:P.
  - destruct (isHostAllowed (hostname u) (allowedHosts_of c)) eqn:A; [discriminate|].
    intros E. injection E as <- _. split; [reflexivity|].
    exists (String a t), (String b tok).
    split; [reflexivity|]. split; [exact G|]. split; [discriminate|].
    right. exists u. auto.
  - intros E. injection E as <- _. split; [reflexivity|].
    exists (String a t), (String b tok).
    split; [reflexivity|]. split; [exact G|]. split; [discriminate|].
    left. auto.
Qed.

Lemma patched_get_error_justified_witness :
  sensitive "x-forwarded-host" = true
  /\ exists v tok,
      Headers.get (headers request_bad_host) "x-forwarded-host" = Some v
      /\ getFirstHeaderValue (Some (HString v)) = Some tok
      /\ tok <> ""
      /\ ((Whatwg.parse ("http://" ++ tok) = None
           /\ HeaderUnparsableError "x-forwarded-host"
              = HeaderUnparsableError "x-forwarded-host")
          \/ (exists u, Whatwg.parse ("http://" ++ tok) = Some u
                        /\ isHostAllowed (hostname u) allowed_example = false
                        /\ HeaderUnparsableError "x-forwarded-host"
                           = HeaderNotAllowedError "x-forwarded-host" tok)).
Proof.
  apply (patched_get_error_justified Whatwg.parse
           (fst (cloneRequestAndPatchHeaders request_bad_host allowed_example))
           "x-forwarded-host" None
           (HeaderUnparsableError "x-forwarded-host")
           (Some (HeaderUnparsableError "x-forwarded-host")));
    reflexivity.
Defined.

(** When the values of [host] and [x-forwarded-host] pass
    [verifyHostAllowed], or are missing or empty, no read from the
    clone raises, a lookup under a token in whatever spelling, a call
    of [values()] or a step over entries of the clone, in whatever
    order, and the promise stays pending. *)
Theorem valid_hosts_never_resolve :
  forall parse_url c reads,
    values_check parse_url c "host" = Return tt ->
    values_check parse_url c "x-forwarded-host" = Return tt ->
    Forall (from_clone c) reads ->
    do_reads parse_url c reads None = (map (fun _ => None) reads, None).
Proof.
  intros parse_url c reads H1 H2 Hr.
  assert (Ok : forall name v,
             sensitive name = true ->
             Headers.get (headers (clonedReq c)) name = Some v ->
             verifyHostAllowed parse_url name v (allowedHosts_of c) = Return tt
             \/ v = "").
  { intros name v Hs Hg. unfold values_check in H1, H2.
    destruct v as [|a t]; [now right|]. left.
    destruct (sensitive_get (headers (clonedReq c)) name Hs) as [E|E];
      rewrite E in Hg.
    - rewrite Hg in H1. now apply (verify_ok_any_name parse_url "host").
    - rewrite Hg in H2. now apply (verify_ok_any_name parse_url "x-forwarded-host"). }
  induction Hr as [|r rest Hc _ IH]; [reflexivity|].
  cbn [do_reads map].
  assert (R : do_read parse_url c r None = (None, None)).
  { destruct r as [name| |it]; cbn [do_read].
    - rewrite patched_get_eq.
      destruct (Headers.get (headers (clonedReq c)) name) as [[|a t]|] eqn:G;
        try reflexivity.
      destruct (sensitive name) eqn:Hs; [|reflexivity].
      destruct (Ok name _ Hs G) as [V|V]; [|discriminate]. now rewrite V.
    - rewrite patched_values_eq, H1, H2. reflexivity.
    - destruct it as [|[key value] it']; [reflexivity|].
      rewrite patched_next_eq. destruct value as [|a t]; [reflexivity|].
      destruct (sensitive key) eqn:Hs; [|reflexivity].
      assert (In (key, String a t) (patched_entries c))
        by (apply Hc; now left).
      destruct (sensitive_entry _ _ _ H Hs) as [_ G].
      destruct (Ok key _ Hs G) as [V|V]; [|discriminate]. now rewrite V. }
  now rewrite R, IH.
Qed.

Lemma valid_hosts_never_resolve_witness :
  do_reads Whatwg.parse
    (fst (cloneRequestAndPatchHeaders request_path_host allowed_example))
    [ReadGet "HOST"; ReadValues; ReadNext [("host", "api.example.com/x")]] None
  = ([None; None; None], None).
Proof.
  apply (valid_hosts_never_resolve Whatwg.parse
           (fst (cloneRequestAndPatchHeaders request_path_host allowed_example))
           [ReadGet "HOST"; ReadValues; ReadNext [("host", "api.example.com/x")]]);
    try reflexivity.
  apply Forall_cons; [reflexivity|]. apply Forall_cons; [exact I|].
  apply Forall_cons; [|apply Forall_nil].
  intros x H. exact H.
Defined.

(** When the value of [host] or of [x-forwarded-host] fails
    [verifyHostAllowed], no full reading of the headers misses it: a
    call of [values()] and a loop over the entries both raise and
    resolve a pending promise with the error they raise. *)
Theorem violation_is_not_missed :
  forall parse_url request allowedHosts name v e,
    name = "host" \/ name = "x-forwarded-host" ->
    Headers.get (headers request) name = Some v ->
    verifyHostAllowed parse_url name v allowedHosts = Throw e ->
    let c := fst (cloneRequestAndPatchHeaders request allowedHosts) in
    (exists e', patched_values parse_url c None = (Throw e', Some e'))
    /\ (exists e', for_of_entries parse_url c (patched_entries c) None
                   = (Throw e', Some e')).
Proof.
  intros parse_url request allowedHosts name v e Hn Hg Hv c. subst c.
  cbn [fst cloneRequestAndPatchHeaders].
  assert (Nv : v <> "").
  { intros ->. rewrite verifyHostAllowed_eq in Hv. discriminate. }
  split.
  - rewrite patched_values_eq. unfold values_check. cbn [clonedReq allowedHosts_of].
    destruct Hn as [-> | ->].
    + rewrite Hg. destruct v; [congruence|]. rewrite Hv. eexists. reflexivity.
    + rewrite Hg.
      destruct (Headers.get (headers request) "host") as [[|a t]|];
        try (destruct v; [congruence|]; rewrite Hv; eexists; reflexivity).
      destruct (verifyHostAllowed parse_url "host" (String a t) allowedHosts)
        as [[]|e0]; [|eexists; reflexivity].
      destruct v; [congruence|]. rewrite Hv. eexists. reflexivity.
  - unfold patched_entries. cbn [clonedReq].
    assert (Hin : In (name, v) (Headers.entries (headers request))).
    { apply get_in_entries; [exact Hg | |]; destruct Hn as [-> | ->];
        (reflexivity || discriminate). }
    assert (Hs : sensitive name = true) by (destruct Hn as [-> | ->]; reflexivity).
    set (c := {| clonedReq := request; allowedHosts_of := allowedHosts |}).
    assert (T : forall it p,
               In (name, v) it ->
               exists e', for_of_entries parse_url c it p = (Throw e', resolve p e')).
    { induction it as [|[k w] rest IH]; intros p I; [destruct I|].
      pose proof (for_of_entries_mirrored parse_url c ((k, w) :: rest) p) as M.
      cbn [for_of_entries] in *. rewrite validateHeader_eq in *.
      destruct I as [I|I].
      - injection I as -> ->. destruct v; [congruence|].
        rewrite Hs in *. cbn [allowedHosts_of c] in *. rewrite Hv in *.
        eexists. reflexivity.
      - destruct (IH p I) as [e' E].
        assert (Q : exists e'',
                   match for_of_entries parse_url c rest p with
                   | (Return l, p') => (Return ((k, w) :: l), p')
                   | (Throw e0, p') => (Throw e0, p')
                   end = (Throw e'', resolve p e'')).
        { rewrite E. eexists. reflexivity. }
        destruct w as [|a t]; [exact Q|].
        destruct (sensitive k); [|exact Q].
        destruct (verifyHostAllowed parse_url k (String a t) (allowedHosts_of c))
          as [[]|e0]; [exact Q | eexists; reflexivity]. }
    apply (T _ None Hin).
Qed.

Lemma violation_is_not_missed_witness :
  (exists e',
      patched_values Whatwg.parse
        (fst (cloneRequestAndPatchHeaders request_two_violations allowed_example))
        None
      = (Throw e', Some e'))
  /\ (exists e',
         for_of_entries Whatwg.parse
           (fst (cloneRequestAndPatchHeaders request_two_violations allowed_example))
           (patched_entries
              (fst (cloneRequestAndPatchHeaders request_two_violations
                      allowed_example)))
           None
         = (Throw e', Some e')).
Proof.
  apply (violation_is_not_missed Whatwg.parse request_two_violations
           allowed_example "x-forwarded-host" "bad host"
           (HeaderUnparsableError "x-forwarded-host"));
    [now right | reflexivity | reflexivity].
Defined.

(** ** A header given more than once *)

(** When a header is given more than once, its values are looked up
    as one list, so that only the first one is checked: with a first
    value free of commas, the token that the rules see is that value,
    trimmed, whatever headers follow. *)
Theorem repeated_header_first_value :
  forall (h : Headers.t) name name' v,
    Headers.same_name name name' = true ->
    Js.all_chars (fun c => negb (Ascii.eqb c ",")) v = true ->
    header_token ((name, v) :: h) name' = Some (Js.trim v).
Proof.
  intros h name name' v Hn Hv. unfold header_token, Headers.get, Headers.values_of.
  cbn [filter fst]. rewrite Hn. cbn [map snd].
  destruct (map snd (filter (fun nv => Headers.same_name (fst nv) name') h))
    as [|w ws]; cbn [String.concat option_map].
  - apply getFirstHeaderValue_of_token, first_token_self, Hv.
  - apply getFirstHeaderValue_of_token. cbn [toString].
    change (v ++ ", " ++ String.concat ", " (w :: ws))
      with (v ++ "," ++ (" " ++ String.concat ", " (w :: ws))).
    apply first_token_before_comma, Hv.
Qed.

Lemma repeated_header_first_value_witness :
  header_token [("Host", "allowed.example.com"); ("host", "bad host")] "host"
  = Some "allowed.example.com".
Proof.
  apply (repeated_header_first_value [("host", "bad host")] "Host" "host"
           "allowed.example.com"); reflexivity.
Defined.

(** ** More on the rule of the prefix *)

Lemma path_segments_append (s t : string) (c : ascii) :
  is_sep c = true ->
  path_segments (s ++ String c t) = (path_segments s ++ path_segments t)%list.
Proof.
  intros Hc. induction s as [|d s IH].
  - cbn [append path_segments]. now rewrite Hc.
  - cbn [append path_segments]. rewrite IH, (path_segments_cons s).
    now destruct (is_sep d).
Qed.

Lemma segment_chars (f : ascii -> bool) (s seg : string) :
  In seg (path_segments s) ->
  Js.all_chars f s = true -> Js.all_chars f seg = true.
Proof.
  revert seg. induction s as [|c s IH]; intros seg Hin H.
  - destruct Hin as [<-|[]]. reflexivity.
  - cbn [Js.all_chars] in H. apply andb_prop in H. destruct H as [Hc H].
    rewrite segments_step in Hin.
    assert (First : In (first_segment s) (path_segments s))
      by (rewrite path_segments_cons; now left).
    assert (Later : forall x, In x (later_segments s) -> In x (path_segments s))
      by (intros x Hx; rewrite path_segments_cons; now right).
    destruct (is_sep c).
    + destruct Hin as [<-|[<-|Hin]]; [reflexivity | now apply IH | apply IH; auto].
    + destruct Hin as [<-|Hin]; [|apply IH; auto].
      cbn [Js.all_chars]. rewrite Hc. now apply IH.
Qed.

(** A token without a dot is rejected exactly when it starts with two
    slashes or backslashes: a repeated slash further on is let
    through. *)
Theorem prefix_without_dot :
  forall s,
    Js.all_chars (fun c => negb (Ascii.eqb c ".")) s = true ->
    test INVALID_PREFIX_REGEX s = starts_with_two_seps s.
Proof.
  intros s H. rewrite prefix_regex_spec. unfold prefix_rejected.
  destruct (existsb is_dot_segment (path_segments s)) eqn:E;
    [|apply orb_false_r].
  apply existsb_exists in E. destruct E as [seg [Hin Hd]].
  pose proof (segment_chars _ s seg Hin H) as F.
  unfold is_dot_segment in Hd.
  destruct seg as [|c seg]; [discriminate|].
  cbn [Js.all_chars] in F. apply andb_prop in F. destruct F as [Fc _].
  apply negb_true_iff in Fc. cbn [String.eqb] in Hd. rewrite Fc in Hd.
  discriminate.
Qed.

Lemma prefix_without_dot_witness :
  test INVALID_PREFIX_REGEX "/app//v2\admin" = starts_with_two_seps "/app//v2\admin".
Proof. apply prefix_without_dot. reflexivity. Defined.

(** A rejected token stays rejected when a path is appended to it
    after a slash or a backslash. *)
Theorem prefix_rejection_persists :
  forall s c t,
    is_sep c = true ->
    test INVALID_PREFIX_REGEX s = true ->
    test INVALID_PREFIX_REGEX (s ++ String c t) = true.
Proof.
  intros s c t Hc. rewrite !prefix_regex_spec. unfold prefix_rejected.
  rewrite (path_segments_append s t c Hc), existsb_app.
  intros H. apply orb_prop in H. destruct H as [H|H].
  - destruct s as [|a [|b s]]; try discriminate.
    cbn [append starts_with_two_seps] in *. now rewrite H.
  - rewrite H. cbn [orb]. apply orb_true_r.
Qed.

Lemma prefix_rejection_persists_witness :
  test INVALID_PREFIX_REGEX ("/app/.." ++ String "/" "secret") = true.
Proof. apply prefix_rejection_persists; reflexivity. Defined.
